(** * The study-log journal (src/src/App.jsx): a shallow embedding

    The application is one React component.  Its state is the post
    collection, the draft of the entry form, the search query and the
    form toggle; the post collection is mirrored into one localStorage
    slot.  This development embeds the functions of App.jsx
    ([loadPosts], [makeId], [filteredPosts], [handleChange],
    [handleSubmit], [removePost], [resetPosts], the Clear button, the
    persistence effect and the JSX of the feed) and proves or refutes the
    specification's statements about them.

    Conventions.
    - A JavaScript string is a sequence of UTF-16 code units.  It is
      modelled by [string], each character standing for the code unit
      with the same number, U+0000 to U+00FF.  [trim], [toLowerCase],
      [split], [join] and [includes] are given on that range exactly as
      ECMAScript defines them, and the range is closed under them.
    - A thrown exception is a [Throw] result.
    - What the browser provides and the code only calls ([JSON.parse],
      [JSON.stringify], [String.prototype.localeCompare], the printing of
      numbers) is a field of the class [Runtime]; the clock, the
      identifier source and the answer to [confirm] are read from an
      [Env] handed to each event. *)

From Stdlib Require Import String Ascii ZArith List Lia Permutation Sorted DecimalString.
From Stdlib Require Import OrderedTypeEx DecimalN.
From Corelib Require Import PrimFloat.
From stdpp Require Import base list strings gmap.

Set Default Proof Using "Type".
#[local] Set Warnings "-register-all".

(** ** Exceptions *)

Inductive exn := TypeError | SyntaxError.

Inductive result (A : Type) :=
| Ok (a : A)
| Throw (e : exn).
Arguments Ok {A} a.
Arguments Throw {A} e.

#[global] Instance result_ret : MRet result := fun A a => Ok a.

#[global] Instance result_bind : MBind result := fun A B k m =>
  match m with
  | Ok a => k a
  | Throw e => Throw e
  end.

#[global] Instance result_fmap : FMap result := fun A B f m =>
  match m with
  | Ok a => Ok (f a)
  | Throw e => Throw e
  end.

(** The computation returned, and what it returned satisfies [P]. *)
Definition forall_ok {A} (P : A -> Prop) (m : result A) : Prop :=
  match m with
  | Ok a => P a
  | Throw _ => False
  end.

(** [l.map(f)] and [l.filter(f)] for a callback that may throw: the
    elements are visited from index 0 upwards and the first exception
    ends the call. *)
Fixpoint mapM {A B} (f : A -> result B) (l : list A) : result (list B) :=
  match l with
  | [] => Ok []
  | x :: l' => y ← f x; ys ← mapM f l'; Ok (y :: ys)
  end.

Fixpoint filterM {A} (f : A -> result bool) (l : list A) : result (list A) :=
  match l with
  | [] => Ok []
  | x :: l' => b ← f x; ys ← filterM f l'; Ok (if (b : bool) then x :: ys else ys)
  end.

(** ** Strings *)

Module JSString.

(** WhiteSpace and LineTerminator code units below U+0100: TAB, LF, VT,
    FF, CR, SP and NBSP. *)
Definition isWhiteSpace (c : ascii) : bool :=
  let n := N_of_ascii c in
  ((n =? 9) || (n =? 10) || (n =? 11) || (n =? 12) || (n =? 13)
   || (n =? 32) || (n =? 160))%N.

Fixpoint trimStart (s : string) : string :=
  match s with
  | EmptyString => EmptyString
  | String c s' => if isWhiteSpace c then trimStart s' else s
  end.

Fixpoint trimEnd (s : string) : string :=
  match s with
  | EmptyString => EmptyString
  | String c s' =>
      match trimEnd s' with
      | EmptyString => if isWhiteSpace c then EmptyString else String c EmptyString
      | t => String c t
      end
  end.

(** [s.trim()] *)
Definition trim (s : string) : string := trimEnd (trimStart s).

(** The lower-case mapping of one code unit below U+0100: A-Z, and the
    capital letters U+00C0-U+00DE except the multiplication sign U+00D7,
    move up by 32. *)
Definition lowerChar (c : ascii) : ascii :=
  let n := N_of_ascii c in
  if (((65 <=? n) && (n <=? 90))
      || ((192 <=? n) && (n <=? 222) && negb (n =? 215)))%N
  then ascii_of_N (n + 32)
  else c.

(** [s.toLowerCase()] *)
Fixpoint toLowerCase (s : string) : string :=
  match s with
  | EmptyString => EmptyString
  | String c s' => String (lowerChar c) (toLowerCase s')
  end.

(** [s.includes(needle)]: [needle] occurs in [s] at some position. *)
Fixpoint includes (s needle : string) : bool :=
  String.prefix needle s
  || match s with
     | EmptyString => false
     | String _ s' => includes s' needle
     end.

(** [s.split(sep)] for a separator of one code unit: the pieces between
    the separators, in order; never the empty list. *)
Fixpoint split (s : string) (sep : ascii) : list string :=
  match s with
  | EmptyString => [EmptyString]
  | String c s' =>
      if Ascii.eqb c sep then EmptyString :: split s' sep
      else match split s' sep with
           | [] => [String c EmptyString]
           | t :: ts => String c t :: ts
           end
  end.

(** [l.join(sep)] on an array of strings. *)
Definition join (l : list string) (sep : string) : string :=
  String.concat sep l.

(** [!s] on a string: only the empty string is falsy. *)
Definition isEmpty (s : string) : bool :=
  match s with
  | EmptyString => true
  | String _ _ => false
  end.

(** The decimal digits of a non-negative integer, as a template literal
    prints it. *)
Definition decimal (n : N) : string :=
  NilEmpty.string_of_uint (N.to_uint n).

End JSString.

(** ** Values *)

Module JSValue.
Import JSString.

(** The values [JSON.parse] can return, which are also the values the
    application builds.  A number is an IEEE 754 binary64; an array
    holds its elements in index order; an object holds its own
    properties in creation order, each key once.  [undefined] is no
    constructor: it is the [None] of a property read. *)
Inductive value :=
| VNull
| VBool (b : bool)
| VNum (n : float)
| VStr (s : string)
| VArr (elems : list value)
| VObj (props : list (string * value)).

Fixpoint own (props : list (string * value)) (k : string) : option value :=
  match props with
  | [] => None
  | (k', v) :: ps => if String.eqb k k' then Some v else own ps k
  end.

(** [v.k] for a property name [k] that no built-in prototype defines
    (the application reads [id], [title], [date], [tags], [summary] and
    [content]): reading a property of [null] throws, an object answers
    with its own property, every other value with [undefined]. *)
Definition get (v : value) (k : string) : result (option value) :=
  match v with
  | VNull => Throw TypeError
  | VObj props => Ok (own props k)
  | _ => Ok None
  end.

(** ToBoolean *)
Definition truthy (v : option value) : bool :=
  match v with
  | None | Some VNull => false
  | Some (VBool b) => b
  | Some (VNum n) => negb ((n =? 0)%float || negb (n =? n)%float)
  | Some (VStr s) => negb (isEmpty s)
  | Some (VArr _) | Some (VObj _) => true
  end.

(** [...v] inside an array literal: arrays and strings are iterable, a
    string by its code points; nothing else a property can hold is. *)
Definition spread (v : value) : result (list value) :=
  match v with
  | VArr l => Ok l
  | VStr s => Ok (map (fun c => VStr (String c EmptyString)) (list_ascii_of_string s))
  | _ => Throw TypeError
  end.

(** What the browser provides. [JSON_parse] throws a [SyntaxError] on
    text that is not JSON; [localeCompare a b] is [a.localeCompare(b)],
    a negative number, zero or a positive number by the collation of the
    host's locale. *)
Class Runtime := {
  JSON_parse : string -> result value;
  JSON_stringify : list value -> string;
  localeCompare : string -> string -> Z;
  Number_toString : float -> string;
}.

(** The empty text is not JSON. *)
Definition parse_rejects_empty `{Runtime} : Prop :=
  JSON_parse EmptyString = Throw SyntaxError.

(** ECMA-402 and ECMA-262 require [localeCompare] to be a consistent
    comparison function on the set of all strings. *)
Definition consistent_comparator `{Runtime} : Prop :=
  (forall a b, localeCompare a b <= 0 \/ localeCompare b a <= 0)%Z
  /\ (forall a b c, localeCompare a b <= 0 -> localeCompare b c <= 0 ->
                    localeCompare a c <= 0)%Z.

Section Conversions.
Context `{Runtime}.

Definition mapElems (f : value -> result string) : list value -> result (list string) :=
  fix go (l : list value) : result (list string) :=
    match l with
    | [] => Ok []
    | VNull :: l' => ys ← go l'; Ok (EmptyString :: ys)
    | v :: l' => y ← f v; ys ← go l'; Ok (y :: ys)
    end.

(** ToString.  An array prints as its elements joined by commas, [null]
    elements as the empty string.  An object prints through
    [Object.prototype.toString], unless it has an own property
    [toString]: such a property holds data, which cannot be called, and
    neither can anything [valueOf] would offer, so the conversion throws. *)
Fixpoint ToString (v : value) : result string :=
  match v with
  | VNull => Ok "null"
  | VBool true => Ok "true"
  | VBool false => Ok "false"
  | VNum n => Ok (Number_toString n)
  | VStr s => Ok s
  | VArr l => parts ← mapElems ToString l; Ok (join parts ",")
  | VObj props =>
      match own props "toString" with
      | Some _ => Throw TypeError
      | None => Ok "[object Object]"
      end
  end%string.

(** ToString of the result of a property read. *)
Definition ToString_opt (v : option value) : result string :=
  match v with
  | None => Ok "undefined"%string
  | Some v => ToString v
  end.

(** [l.join(sep)] on an array literal whose elements are property reads
    and array elements: [undefined] and [null] give the empty string. *)
Definition joinValues (l : list (option value)) (sep : string) : result string :=
  parts ← mapM (fun v => match v with
                         | None | Some VNull => Ok EmptyString
                         | Some v => ToString v
                         end) l;
  Ok (join parts sep).

End Conversions.

(** [l.sort(cmp)] for a comparator that may throw.  ECMAScript requires
    the sort to be stable and, for a consistent comparator that does not
    throw, fixes the result: the stable sorted permutation, which an
    insertion sort computes.  When the comparator throws on some pair,
    which pairs an engine compares is its own choice; the model then
    compares as the insertion sort does. *)
Section Sort.
Context {A : Type} (cmp : A -> A -> result Z).

Fixpoint insert (x : A) (l : list A) : result (list A) :=
  match l with
  | [] => Ok [x]
  | y :: l' =>
      c ← cmp x y;
      if (c <=? 0)%Z then Ok (x :: y :: l')
      else r ← insert x l'; Ok (y :: r)
  end.

Fixpoint sort (l : list A) : result (list A) :=
  match l with
  | [] => Ok []
  | x :: l' => s ← sort l'; insert x s
  end.

End Sort.

End JSValue.

(** ** The application *)

Module Post.
(** The object literal [handleSubmit] builds, and the shape of the two
    seed posts. *)
Record t := {
  id : string;
  title : string;
  date : string;
  tags : list string;
  summary : string;
  content : string;
}.
End Post.

Module Draft.
(** The form's state: every field is the text of an input. *)
Record t := {
  title : string;
  date : string;
  tags : string;
  summary : string;
  content : string;
}.
End Draft.

Module App.
Import JSString JSValue.

(** A post as the value the store holds: the six properties in the order
    the literals list them. *)
Definition obj (p : Post.t) : value :=
  VObj [ ("id", VStr (Post.id p));
         ("title", VStr (Post.title p));
         ("date", VStr (Post.date p));
         ("tags", VArr (map VStr (Post.tags p)));
         ("summary", VStr (Post.summary p));
         ("content", VStr (Post.content p)) ]%string.

Definition seed1 : Post.t := {|
  Post.id := "seed-1";
  Post.title := "Kickoff and goals";
  Post.date := "2026-01-28";
  Post.tags := ["planning"; "goals"];
  Post.summary := "Defined the scope, schedule, and first-week focus.";
  Post.content :=
    "Mapped out weekly themes, picked core resources, and set a simple daily routine.";
|}%string.

Definition seed2 : Post.t := {|
  Post.id := "seed-2";
  Post.title := "First practice session";
  Post.date := "2026-01-27";
  Post.tags := ["practice"; "notes"];
  Post.summary := "Completed the first hands-on exercise and documented gaps.";
  Post.content :=
    "Built a tiny prototype, captured what felt confusing, and wrote follow-up questions.";
|}%string.

Definition seedPosts : list value := [obj seed1; obj seed2].

(** What a handler reads from outside the component when it runs:
    [today] is [new Date().toISOString().slice(0, 10)], [now] is
    [Date.now()], [randomUUID] is the result of [crypto.randomUUID()]
    when the runtime has it, and [confirmed] is the user's answer to
    [confirm]. *)
Record Env := {
  today : string;
  now : N;
  randomUUID : option string;
  confirmed : bool;
}.

(** [const emptyDraft = {...}] is evaluated once, when the module is
    loaded; [atLoad] is the environment of that moment. *)
Definition emptyDraft (atLoad : Env) : Draft.t := {|
  Draft.title := EmptyString;
  Draft.date := today atLoad;
  Draft.tags := EmptyString;
  Draft.summary := EmptyString;
  Draft.content := EmptyString;
|}.

(** One line of [console.error]: the message and the error. *)
Definition logline : Type := string * exn.

Definition STORAGE_KEY : string := "independent-study-posts-v1".

(** [localStorage]: texts under keys. *)
Definition getItem (localStorage : gmap string string) (key : string) : option string :=
  localStorage !! key.

Definition setItem (localStorage : gmap string string) (key text : string)
  : gmap string string :=
  <[key := text]> localStorage.

Section WithRuntime.
Context `{Runtime}.

(** [loadPosts()]: what it returns and what it writes to the console.
    [getItem] answers [null], here [None], when the key holds nothing. *)
Definition loadPosts (localStorage : gmap string string) : list value * list logline :=
  let saved := getItem localStorage STORAGE_KEY in
  match saved with
  | None => (seedPosts, [])
  | Some s =>
      if isEmpty s then (seedPosts, [])
      else match JSON_parse s with
           | Ok (VArr parsed) => (parsed, [])
           | Ok _ => (seedPosts, [])
           | Throw error => (seedPosts, [("Failed to parse saved posts"%string, error)])
           end
  end.

Definition makeId (env : Env) : string :=
  match randomUUID env with
  | Some uuid => uuid
  | None => ("post-" +:+ decimal (now env))%string
  end.

(** The comparator of the view's sort, [(a, b) => b.date.localeCompare(a.date)]:
    [b.date] has to be a string for the method to exist, and [a.date] is
    converted to one. *)
Definition byDateDesc (a b : value) : result Z :=
  bd ← get b "date";
  ad ← get a "date";
  match bd with
  | Some (VStr s) => that ← ToString_opt ad; Ok (localeCompare s that)
  | _ => Throw TypeError
  end.

(** [[post.title, post.summary, post.content, ...(post.tags || [])].join(" ").toLowerCase()] *)
Definition haystack (post : value) : result string :=
  title ← get post "title";
  summary ← get post "summary";
  content ← get post "content";
  tags ← get post "tags";
  rest ← (if truthy tags then from_option spread (Ok []) tags else Ok []);
  s ← joinValues (title :: summary :: content :: map Some rest) " ";
  Ok (toLowerCase s).

(** The memoised view. *)
Definition filteredPosts (posts : list value) (query : string) : result (list value) :=
  let normalized := toLowerCase (trim query) in
  list ← sort byDateDesc posts;
  if isEmpty normalized then Ok list
  else filterM (fun post => h ← haystack post; Ok (includes h normalized)) list.

End WithRuntime.

(** The component's state, the browser's localStorage and the console. *)
Record World := {
  posts : list value;
  draft : Draft.t;
  query : string;
  showForm : bool;
  localStorage : gmap string string;
  console : list logline;
}.

(** The [name] attributes of the form's inputs. *)
Inductive field := Title | Date | Tags | Summary | Content.

(** [{ ...current, [name]: value }] *)
Definition setField (d : Draft.t) (name : field) (v : string) : Draft.t :=
  match name with
  | Title => {| Draft.title := v; Draft.date := Draft.date d; Draft.tags := Draft.tags d;
                Draft.summary := Draft.summary d; Draft.content := Draft.content d |}
  | Date => {| Draft.title := Draft.title d; Draft.date := v; Draft.tags := Draft.tags d;
               Draft.summary := Draft.summary d; Draft.content := Draft.content d |}
  | Tags => {| Draft.title := Draft.title d; Draft.date := Draft.date d; Draft.tags := v;
               Draft.summary := Draft.summary d; Draft.content := Draft.content d |}
  | Summary => {| Draft.title := Draft.title d; Draft.date := Draft.date d; Draft.tags := Draft.tags d;
                  Draft.summary := v; Draft.content := Draft.content d |}
  | Content => {| Draft.title := Draft.title d; Draft.date := Draft.date d; Draft.tags := Draft.tags d;
                  Draft.summary := Draft.summary d; Draft.content := v |}
  end.

Definition setPosts (w : World) (ps : list value) : World :=
  {| posts := ps; draft := draft w; query := query w; showForm := showForm w;
     localStorage := localStorage w; console := console w |}.

Definition setDraft (w : World) (d : Draft.t) : World :=
  {| posts := posts w; draft := d; query := query w; showForm := showForm w;
     localStorage := localStorage w; console := console w |}.

Definition setQuery (w : World) (q : string) : World :=
  {| posts := posts w; draft := draft w; query := q; showForm := showForm w;
     localStorage := localStorage w; console := console w |}.

Definition setShowForm (w : World) (b : bool) : World :=
  {| posts := posts w; draft := draft w; query := query w; showForm := b;
     localStorage := localStorage w; console := console w |}.

Definition handleChange (name : field) (v : string) (w : World) : World :=
  setDraft w (setField (draft w) name v).

(** [draft.tags.split(",").map((tag) => tag.trim()).filter(Boolean)] *)
Definition parseTags (s : string) : list string :=
  List.filter (fun tag => negb (isEmpty tag)) (map trim (split s ","%char)).

(** The post of a draft that passed the check. *)
Definition newPost (env : Env) (d : Draft.t) : Post.t := {|
  Post.id := makeId env;
  Post.title := trim (Draft.title d);
  Post.date := if isEmpty (Draft.date d) then today env else Draft.date d;
  Post.tags := parseTags (Draft.tags d);
  Post.summary := trim (Draft.summary d);
  Post.content := trim (Draft.content d);
|}.

(** [(current) => [newPost, ...current]] *)
Definition add (post : value) (current : list value) : list value :=
  post :: current.

(** [handleSubmit]: [None] is the early [return], after which no state
    was set. *)
Definition handleSubmit (atLoad env : Env) (w : World) : option World :=
  if isEmpty (trim (Draft.title (draft w))) || isEmpty (trim (Draft.content (draft w)))
  then None
  else
    let p := newPost env (draft w) in
    Some (setDraft (setPosts w (add (obj p) (posts w)))
                   (setField (emptyDraft atLoad) Date (Post.date p))).

(** [post.id !== id] for the string [id]. *)
Definition idDiffers (id : string) (post : value) : result bool :=
  pid ← get post "id";
  match pid with
  | Some (VStr s) => Ok (negb (String.eqb s id))
  | _ => Ok true
  end.

(** [current.filter((post) => post.id !== id)] *)
Definition removePost (id : string) (current : list value) : result (list value) :=
  filterM (idDiffers id) current.

(** [resetPosts]: [None] is the early [return]. *)
Definition resetPosts (env : Env) (w : World) : option World :=
  if confirmed env then Some (setPosts w seedPosts) else None.

(** The Clear button, [setDraft({ ...emptyDraft })]. *)
Definition clear (atLoad : Env) (w : World) : World :=
  setDraft w (emptyDraft atLoad).

(** The rest of the component, for a module that was loaded in the
    environment [atLoad]. *)
Section Machine.
Context `{Runtime} (atLoad : Env).

(** The effect on [[posts]]: after a render in which [posts] is another
    array, [localStorage.setItem(STORAGE_KEY, JSON.stringify(posts))]. *)
Definition persist (w : World) : World :=
  {| posts := posts w; draft := draft w; query := query w; showForm := showForm w;
     localStorage := setItem (localStorage w) STORAGE_KEY (JSON_stringify (posts w));
     console := console w |}.

(** Mounting the component in a browser whose localStorage is [stored]:
    the state initialisers run, then the effect.  The effect runs after
    the first render; this definition is the mount when that render
    returns, and [Live.mount] is the mount with the render in it. *)
Definition mount (stored : gmap string string) : World :=
  let '(ps, logged) := loadPosts stored in
  persist {| posts := ps; draft := emptyDraft atLoad; query := EmptyString;
             showForm := true; localStorage := stored; console := logged |}.

Inductive event :=
| Change (name : field) (v : string)
| Submit
| Clear
| Remove (id : string)
| Reset
| Search (q : string)
| ToggleForm.

(** One event, by what the handler and the effect do: the state the
    handler sets and, when it set [posts], the effect's write.  An
    exception thrown by a state updater ends the run.  React renders
    between the handler and the effect; this definition is the event when
    that render returns, and [Live.step] is the event with the render
    in it. *)
Definition step (env : Env) (ev : event) (w : World) : result World :=
  match ev with
  | Change name v => Ok (handleChange name v w)
  | Submit =>
      match handleSubmit atLoad env w with
      | Some w' => Ok (persist w')
      | None => Ok w
      end
  | Clear => Ok (clear atLoad w)
  | Remove id => ps ← removePost id (posts w); Ok (persist (setPosts w ps))
  | Reset =>
      match resetPosts env w with
      | Some w' => Ok (persist w')
      | None => Ok w
      end
  | Search q => Ok (setQuery w q)
  | ToggleForm => Ok (setShowForm w (negb (showForm w)))
  end.

(** A run: the events in order, each with the environment it met. *)
Fixpoint run (trace : list (Env * event)) (w : World) : result World :=
  match trace with
  | [] => Ok w
  | (env, ev) :: rest => w' ← step env ev w; run rest w'
  end.

End Machine.

End App.

(** ** The view, with arrays in memory

    [[...posts].sort(cmp)] sorts in place.  What it sorts is the copy the
    spread made; to say so, arrays live in a heap here and the state
    variable [posts] is a location. *)

Module Mem.
Import JSString JSValue.

Abbreviation loc := positive.
Abbreviation heap := (gmap loc (list value)).

(** A new array holding [elems]. *)
Definition alloc (h : heap) (elems : list value) : heap * loc :=
  let l := fresh (dom h) in (<[l := elems]> h, l).

Section WithRuntime.
Context `{Runtime}.

(** The callback of [useMemo]: the heap it leaves and the array it
    returns.  A sort that throws leaves the copy in an order of the
    engine's choice; the model leaves it as it was copied. *)
Definition filteredPosts (h : heap) (posts : loc) (query : string) : heap * result loc :=
  let normalized := toLowerCase (trim query) in
  match h !! posts with
  | None => (h, Throw TypeError)
  | Some elems =>
      let '(h1, list) := alloc h elems in
      match sort App.byDateDesc elems with
      | Throw e => (h1, Throw e)
      | Ok sorted =>
          let h2 := <[list := sorted]> h1 in
          if isEmpty normalized then (h2, Ok list)
          else
            match filterM (fun post => hay ← App.haystack post;
                                       Ok (includes hay normalized)) sorted with
            | Throw e => (h2, Throw e)
            | Ok kept => let '(h3, r) := alloc h2 kept in (h3, Ok r)
            end
      end
  end.

(** The array a result refers to. *)
Definition deref (r : heap * result loc) : result (list value) :=
  match r with
  | (h, Ok l) => from_option Ok (Throw TypeError) (h !! l)
  | (_, Throw e) => Throw e
  end.

End WithRuntime.
End Mem.

(** ** The store's two operations, counted *)

Module Store.
Import JSString JSValue.

Inductive op :=
| OpAdd (p : Post.t)
| OpRemove (id : string).

(** [post.id === id]; a post whose [id] cannot be read has none. *)
Definition hasId (id : string) (post : value) : bool :=
  match App.idDiffers id post with
  | Ok false => true
  | _ => false
  end.

(** A remove is successful when a post with the given id is present. *)
Definition present (id : string) (ps : list value) : bool :=
  existsb (hasId id) ps.

Record tally := {
  store : list value;
  adds : nat;
  removes : nat;
}.

(** The operations in order, from the collection [ps] and the counts [a]
    and [r]: the collection they leave, the number of adds and the number
    of removes that found their post. *)
Fixpoint exec (ops : list op) (ps : list value) (a r : nat) : result tally :=
  match ops with
  | [] => Ok {| store := ps; adds := a; removes := r |}
  | OpAdd p :: rest => exec rest (App.add (App.obj p) ps) (S a) r
  | OpRemove id :: rest =>
      ps' ← App.removePost id ps;
      exec rest ps' a (if present id ps then S r else r)
  end.

(** Every add brings an id the collection does not hold at that moment. *)
Fixpoint freshAdds (ops : list op) (ps : list value) : Prop :=
  match ops with
  | [] => True
  | OpAdd p :: rest =>
      present (Post.id p) ps = false /\ freshAdds rest (App.add (App.obj p) ps)
  | OpRemove id :: rest =>
      match App.removePost id ps with
      | Ok ps' => freshAdds rest ps'
      | Throw _ => True
      end
  end.

(** The results of [post.id] over the collection. *)
Definition ids (ps : list value) : list (result (option value)) :=
  map (fun post => get post "id") ps.

(** [post.k] is a string, and not the empty one. *)
Definition nonEmptyText (post : value) (k : string) : Prop :=
  exists s, get post k = Ok (Some (VStr s)) /\ s <> EmptyString.

(** [post.tags] is an array of strings, none of them empty. *)
Definition tagsOk (post : value) : Prop :=
  exists ts, get post "tags" = Ok (Some (VArr (map VStr ts)))
             /\ Forall (fun tag => tag <> EmptyString) ts.

(** [post.id] is a string. *)
Definition identified (post : value) : Prop :=
  exists s, get post "id" = Ok (Some (VStr s)).

(** The data model's invariant: every post has a non-empty title and a
    non-empty content, tags without an empty string, and an id, a string,
    that no other post has. *)
Definition invariant (ps : list value) : Prop :=
  Forall (fun post => identified post
                      /\ nonEmptyText post "title" /\ nonEmptyText post "content"
                      /\ tagsOk post) ps
  /\ NoDup (ids ps).

End Store.

(** ** The vocabulary of the statements *)

Module Statements.
Import JSString JSValue App Store.

(** The collection holds no [null], so [post.id] can be read of every
    element, and no two elements answer alike. *)
Definition sound (ps : list value) : Prop :=
  Forall (fun post => post <> VNull) ps /\ NoDup (ids ps).


(** Every code unit of [s] is white space. *)
Definition allWhite (s : string) : Prop :=
  Forall (fun c => isWhiteSpace c = true) (list_ascii_of_string s).

(** The field of the draft an input of the form shows. *)
Definition getField (d : Draft.t) (name : field) : string :=
  match name with
  | Title => Draft.title d
  | Date => Draft.date d
  | Tags => Draft.tags d
  | Summary => Draft.summary d
  | Content => Draft.content d
  end.

#[global] Instance field_eq_dec : EqDecision field.
Proof. solve_decision. Defined.

(** The text the search looks into: title, summary, content and tags,
    joined by spaces and lower-cased. *)
Definition text (p : Post.t) : string :=
  toLowerCase (join (Post.title p :: Post.summary p :: Post.content p :: Post.tags p) " ").

Section WithRuntime.
Context `{Runtime}.

(** What [loadPosts] does not use of what [getItem] returned: nothing stored, the empty string
    (falsy, like [null]), a text that does not parse, or a parsed value
    that is no array. *)
Definition unusable (saved : option string) : Prop :=
  saved = None
  \/ saved = Some EmptyString
  \/ (exists s e, saved = Some s /\ JSON_parse s = Throw e)
  \/ (exists s v, saved = Some s /\ JSON_parse s = Ok v /\ forall l, v <> VArr l).

(** The stored text was handed to [JSON.parse], which threw. *)
Definition parseFailed (saved : option string) : Prop :=
  exists s e, saved = Some s /\ s <> EmptyString /\ JSON_parse s = Throw e.

(** [a] may stand before [b]: the date of [b] collates no later than the
    date of [a]. *)
Definition newerFirst (a b : Post.t) : Prop :=
  (localeCompare (Post.date b) (Post.date a) <= 0)%Z.

(** The insertion sort, on posts. *)
Fixpoint insertByDate (x : Post.t) (l : list Post.t) : list Post.t :=
  match l with
  | [] => [x]
  | y :: l' =>
      if (localeCompare (Post.date y) (Post.date x) <=? 0)%Z then x :: y :: l'
      else y :: insertByDate x l'
  end.

Fixpoint sortByDate (l : list Post.t) : list Post.t :=
  match l with
  | [] => []
  | x :: l' => insertByDate x (sortByDate l')
  end.

(** The date of [p] collates equal to [d]. *)
Definition datedLike (d : string) (p : Post.t) : bool :=
  (localeCompare d (Post.date p) <=? 0)%Z && (localeCompare (Post.date p) d <=? 0)%Z.

End WithRuntime.

Section Traces.
Context `{Runtime} (atLoad : Env).

(** Every submit of the run that [handleSubmit] accepts meets an
    environment whose [makeId] gives an id that no post of the collection
    has at that moment; of a submit that is turned down, and of every
    other event, nothing is asked. *)
Fixpoint freshIds (trace : list (Env * event)) (w : World) : Prop :=
  match trace with
  | [] => True
  | (env, ev) :: rest =>
      (ev = Submit -> handleSubmit atLoad env w <> None ->
       present (makeId env) (posts w) = false)
      /\ match step atLoad env ev w with
         | Ok w' => freshIds rest w'
         | Throw _ => True
         end
  end.

End Traces.

End Statements.

(** ** A runtime to run the model on

    Concrete runs need an instance of [Runtime].  This one compares
    strings by code units, as [localeCompare] does on ISO dates;
    serialises as [JSON.stringify] does, except that it prints every
    number as 0; and parses the few texts the runs below store, each as
    [JSON.parse] does, rejecting every other text. *)

Module Demo.
Import JSString JSValue.

Definition dquote : string := String "034"%char EmptyString.
Definition backslash : string := String "092"%char EmptyString.

Definition hexDigit (n : N) : ascii :=
  if (n <? 10)%N then ascii_of_N (48 + n) else ascii_of_N (87 + n).

(** One code unit inside a JSON string. *)
Definition escape (c : ascii) : string :=
  let n := N_of_ascii c in
  if (n =? 34)%N then backslash +:+ dquote
  else if (n =? 92)%N then backslash +:+ backslash
  else if (n =? 8)%N then backslash +:+ "b"
  else if (n =? 9)%N then backslash +:+ "t"
  else if (n =? 10)%N then backslash +:+ "n"
  else if (n =? 12)%N then backslash +:+ "f"
  else if (n =? 13)%N then backslash +:+ "r"
  else if (n <? 32)%N then
    backslash +:+ "u00" +:+ String (hexDigit (n / 16)) (String (hexDigit (n mod 16)) EmptyString)
  else String c EmptyString.

Fixpoint escapeAll (s : string) : string :=
  match s with
  | EmptyString => EmptyString
  | String c s' => escape c +:+ escapeAll s'
  end.

Definition quote (s : string) : string := dquote +:+ escapeAll s +:+ dquote.

Fixpoint stringify (v : value) : string :=
  match v with
  | VNull => "null"
  | VBool true => "true"
  | VBool false => "false"
  | VNum _ => "0"
  | VStr s => quote s
  | VArr l => "[" +:+ join (map stringify l) "," +:+ "]"
  | VObj props =>
      "{" +:+ join (map (fun kv => quote (fst kv) +:+ ":" +:+ stringify (snd kv)) props) ","
          +:+ "}"
  end%string.

Definition parse (s : string) : result value :=
  if String.eqb s "[]" then Ok (VArr [])
  else if String.eqb s "[{}]" then Ok (VArr [VObj []])
  else if String.eqb s "[null]" then Ok (VArr [VNull])
  else if String.eqb s "{}" then Ok (VObj [])
  else if String.eqb s "null" then Ok VNull
  else Throw SyntaxError.

Definition codeUnitCompare (a b : string) : Z :=
  match String.compare a b with
  | Lt => -1
  | Eq => 0
  | Gt => 1
  end.

#[global] Instance runtime : Runtime := {|
  JSON_parse := parse;
  JSON_stringify := fun posts => stringify (VArr posts);
  localeCompare := codeUnitCompare;
  Number_toString := fun _ => "0"%string;
|}.

(** The page was loaded on 28 January 2026. *)
Definition atLoad : App.Env := {|
  App.today := "2026-01-28";
  App.now := 1769590800000;
  App.randomUUID := Some "6f1c2a34-9b7e-4c1d-8a55-0e2f3d4c5b6a"%string;
  App.confirmed := true;
|}.

(** The next day, in a runtime without [crypto.randomUUID]. *)
Definition nextDay : App.Env := {|
  App.today := "2026-01-29";
  App.now := 1769677200000;
  App.randomUUID := None;
  App.confirmed := false;
|}.

Definition someDraft : Draft.t := {|
  Draft.title := " Test ";
  Draft.date := EmptyString;
  Draft.tags := "planning, , practice,";
  Draft.summary := EmptyString;
  Draft.content := "Body";
|}.

Definition blankTitle : Draft.t := {|
  Draft.title := "  ";
  Draft.date := "2026-01-29";
  Draft.tags := EmptyString;
  Draft.summary := EmptyString;
  Draft.content := "Body";
|}.

(** A browser that holds [text] under the application's key, and
    nothing else. *)
Definition holding (text : string) : gmap string string :=
  {[ App.STORAGE_KEY := text ]}.

(** The component as it mounts with nothing stored, and with a draft
    typed into the form. *)
Definition mounted : App.World := App.mount atLoad ∅.

Definition editing (d : Draft.t) : App.World := App.setDraft mounted d.

End Demo.

(** * Properties *)

(** ** Strings *)

Module JSStringFacts.
Import JSString Statements.

Lemma isEmpty_true (s : string) : isEmpty s = true <-> s = EmptyString.
Proof. destruct s; simpl; split; congruence. Qed.

Lemma isEmpty_false (s : string) : isEmpty s = false <-> s <> EmptyString.
Proof. destruct s; simpl; split; congruence. Qed.

Lemma app_nil (s : string) : EmptyString +:+ s = s.
Proof. reflexivity. Qed.

Lemma app_cons (c : ascii) (a b : string) : String c a +:+ b = String c (a +:+ b).
Proof. reflexivity. Qed.

Lemma prefix_app (n s : string) :
  String.prefix n s = true <-> exists suf, s = n +:+ suf.
Proof.
  revert s; induction n as [|c n IH]; intros s; simpl.
  - split; [intros _; exists s; reflexivity | intros _; destruct s; reflexivity].
  - destruct s as [|d s]; simpl.
    + split; [discriminate | intros [suf Hs]; discriminate].
    + destruct (ascii_dec c d) as [->|Hne].
      * rewrite IH; split; intros [suf Hs]; exists suf;
          rewrite ?app_cons in *; congruence.
      * split; [discriminate | intros [suf Hs]; rewrite app_cons in Hs; congruence].
Qed.

(** [includes] finds exactly the substrings. *)
Lemma includes_substring (s needle : string) :
  includes s needle = true <-> exists pre suf, s = pre +:+ needle +:+ suf.
Proof.
  induction s as [|c s IH]; cbn [includes].
  - rewrite orb_false_r, prefix_app; split.
    + intros [suf Hs]; exists EmptyString, suf; exact Hs.
    + intros [[|d pre] [suf Hs]]; [eauto | discriminate].
  - rewrite orb_true_iff, prefix_app, IH; split.
    + intros [[suf Hs] | (pre & suf & Hs)].
      * exists EmptyString, suf; exact Hs.
      * exists (String c pre), suf; rewrite app_cons; congruence.
    + intros ([|d pre] & suf & Hs); rewrite ?app_nil, ?app_cons in Hs.
      * left; eauto.
      * right; exists pre, suf; congruence.
Qed.

Lemma trimStart_decompose (s : string) :
  exists l, s = l +:+ trimStart s /\ allWhite l.
Proof.
  induction s as [|c s (l & Hs & Hl)]; simpl.
  - exists EmptyString. split; [reflexivity | constructor].
  - destruct (isWhiteSpace c) eqn:Hc.
    + exists (String c l). rewrite app_cons, <- Hs. split; [reflexivity|].
      constructor; assumption.
    + exists EmptyString. split; [reflexivity | constructor].
Qed.

Lemma trimEnd_decompose (s : string) :
  exists r, s = trimEnd s +:+ r /\ allWhite r.
Proof.
  induction s as [|c s (r & Hs & Hr)]; simpl.
  - exists EmptyString. split; [reflexivity | constructor].
  - destruct (trimEnd s) as [|d t] eqn:Ht.
    + destruct (isWhiteSpace c) eqn:Hc.
      * exists (String c r). rewrite app_nil in *. split; [congruence|].
        constructor; assumption.
      * exists r. rewrite app_cons. split; [congruence | assumption].
    + exists r. rewrite app_cons. split; [congruence | assumption].
Qed.

(** [trim] takes white space off both ends, and nothing else. *)
Lemma trim_decompose (s : string) :
  exists l r, s = l +:+ trim s +:+ r /\ allWhite l /\ allWhite r.
Proof.
  destruct (trimStart_decompose s) as (l & Hs & Hl).
  destruct (trimEnd_decompose (trimStart s)) as (r & Ht & Hr).
  exists l, r. unfold trim. rewrite <- Ht. auto.
Qed.

Lemma trimStart_head (s : string) (c : ascii) (t : string) :
  trimStart s = String c t -> isWhiteSpace c = false.
Proof.
  induction s as [|d s IH]; simpl; [discriminate|].
  destruct (isWhiteSpace d) eqn:Hd; [exact IH|]. congruence.
Qed.

Lemma trimEnd_head (s : string) (c : ascii) (t : string) :
  trimEnd s = String c t -> exists t', s = String c t'.
Proof.
  destruct s as [|d s]; simpl; [discriminate|].
  destruct (trimEnd s); [destruct (isWhiteSpace d)|]; intros [= <- _]; eauto.
Qed.

(** What [trim] returns does not begin with white space... *)
Lemma trim_head (s : string) (c : ascii) (t : string) :
  trim s = String c t -> isWhiteSpace c = false.
Proof.
  unfold trim. intros Ht. apply trimEnd_head in Ht as [t' Ht].
  eapply trimStart_head, Ht.
Qed.

Lemma trimEnd_last (s t : string) (c : ascii) :
  trimEnd s = t +:+ String c EmptyString -> isWhiteSpace c = false.
Proof.
  revert t. induction s as [|d s IH]; intros t; simpl.
  - destruct t; discriminate.
  - destruct (trimEnd s) as [|e u] eqn:Hu.
    + destruct (isWhiteSpace d) eqn:Hd.
      * destruct t; discriminate.
      * destruct t as [|? [|]]; intros [= ]; congruence.
    + destruct t as [|f t]; rewrite ?app_nil, ?app_cons; intros [= ]; subst.
      eapply IH. eassumption.
Qed.

(** ...and does not end with it. *)
Lemma trim_last (s t : string) (c : ascii) :
  trim s = t +:+ String c EmptyString -> isWhiteSpace c = false.
Proof. apply trimEnd_last. Qed.

Lemma lowerChar_idempotent (c : ascii) : lowerChar (lowerChar c) = lowerChar c.
Proof. destruct c as [[] [] [] [] [] [] [] []]; reflexivity. Qed.

(** A lower-cased text has no capital left to lower. *)
Lemma toLowerCase_idempotent (s : string) :
  toLowerCase (toLowerCase s) = toLowerCase s.
Proof.
  induction s as [|c s IH]; simpl; [reflexivity|].
  rewrite lowerChar_idempotent, IH. reflexivity.
Qed.

Lemma split_cons (s : string) (sep : ascii) :
  exists t ts, split s sep = t :: ts.
Proof.
  induction s as [|c s (t & ts & IH)]; simpl; [eauto|].
  destruct (Ascii.eqb c sep); [eauto|]. rewrite IH; eauto.
Qed.

Lemma join_cons (x y : string) (l : list string) (sep : string) :
  join (x :: y :: l) sep = x +:+ sep +:+ join (y :: l) sep.
Proof. reflexivity. Qed.

(** Joining the pieces with the separator gives the text back. *)
Lemma join_split (s : string) (sep : ascii) :
  join (split s sep) (String sep EmptyString) = s.
Proof.
  induction s as [|c s IH]; [reflexivity|]. cbn [split].
  destruct (split_cons s sep) as (t & ts & Hs).
  destruct (Ascii.eqb_spec c sep) as [->|Hne]; rewrite Hs in *.
  - rewrite join_cons, IH. reflexivity.
  - destruct ts as [|u ts].
    + unfold join in *; simpl in *; congruence.
    + rewrite join_cons in *. rewrite app_cons. congruence.
Qed.

(** No piece holds the separator. *)
Lemma split_pieces (s : string) (sep : ascii) :
  Forall (fun t => ~ In sep (list_ascii_of_string t)) (split s sep).
Proof.
  induction s as [|c s IH]; simpl.
  - repeat constructor. simpl. tauto.
  - destruct (Ascii.eqb_spec c sep) as [->|Hne].
    + constructor; [simpl; tauto | exact IH].
    + destruct (split s sep) as [|t ts]; [repeat constructor; simpl; tauto|].
      inversion IH; subst. constructor; [|assumption].
      simpl. intros [?|?]; [congruence | tauto].
Qed.

(** Two numbers print alike only when they are one number. *)
Lemma decimal_inj (n m : N) : decimal n = decimal m -> n = m.
Proof.
  unfold decimal. intros Heq.
  apply (f_equal NilEmpty.uint_of_string) in Heq.
  rewrite !NilEmpty.usu in Heq. injection Heq as Heq.
  apply DecimalN.Unsigned.to_uint_inj, Heq.
Qed.

End JSStringFacts.

(** ** Loading *)

Module LoadFacts.
Import JSString JSStringFacts JSValue App Statements.

Lemma loadPosts_unusable `{Runtime} (stored : gmap string string) :
  unusable (getItem stored STORAGE_KEY) -> fst (loadPosts stored) = seedPosts.
Proof.
  unfold loadPosts. generalize (getItem stored STORAGE_KEY). intros saved. simpl.
  intros [->|[->|[(s & e & -> & Hp)|(s & v & -> & Hp & Hna)]]]; try reflexivity.
  - destruct (isEmpty s); [reflexivity|]. rewrite Hp. reflexivity.
  - destruct (isEmpty s); [reflexivity|]. rewrite Hp.
    destruct v; try reflexivity. destruct (Hna elems eq_refl).
Qed.

Lemma loadPosts_usable `{Runtime} (stored : gmap string string) :
  ~ unusable (getItem stored STORAGE_KEY) ->
  exists s l, getItem stored STORAGE_KEY = Some s /\ JSON_parse s = Ok (VArr l)
              /\ loadPosts stored = (l, []).
Proof.
  unfold unusable, loadPosts. generalize (getItem stored STORAGE_KEY).
  intros saved Hu. simpl.
  destruct saved as [s|]; [|destruct Hu; auto].
  destruct (isEmpty s) eqn:Hs.
  { apply isEmpty_true in Hs as ->. destruct Hu; auto. }
  destruct (JSON_parse s) as [v|e] eqn:Hp.
  - destruct v; try (destruct Hu; do 3 right; exists s; eexists;
                     split_and!; [reflexivity | exact Hp | discriminate]).
    exists s, elems. auto.
  - destruct Hu. right; right; left. eauto.
Qed.

Lemma loadPosts_logs `{Runtime} (stored : gmap string string) :
  snd (loadPosts stored) <> [] <-> parseFailed (getItem stored STORAGE_KEY).
Proof.
  unfold parseFailed, loadPosts. generalize (getItem stored STORAGE_KEY).
  intros saved. simpl. destruct saved as [s|].
  2: { split; [done | intros (s & e & ? & _); discriminate]. }
  destruct (isEmpty s) eqn:Hs.
  { apply isEmpty_true in Hs as ->.
    split; [done | intros (s & e & [= <-] & Hne & _); done]. }
  apply isEmpty_false in Hs.
  destruct (JSON_parse s) as [v|e] eqn:Hp.
  - split.
    + destruct v; done.
    + intros (s0 & e & [= <-] & _ & Hthrow). congruence.
  - split; [intros _; eauto | discriminate].
Qed.

(** C2, as the code has it: [loadPosts] returns the seed set, and throws
    nothing, when nothing is stored, when the stored text is empty, when
    it does not parse and when it parses to something that is no array;
    in every other case it returns the parsed array.  It writes to the
    console exactly when a non-empty stored text failed to parse: the
    empty text is never parsed, so nothing is logged for it. *)
Theorem loadPosts_fallback `{Runtime} (stored : gmap string string) :
  let saved := getItem stored STORAGE_KEY in
  (unusable saved -> fst (loadPosts stored) = seedPosts)
  /\ (~ unusable saved ->
      exists s l, saved = Some s /\ JSON_parse s = Ok (VArr l)
                  /\ loadPosts stored = (l, []))
  /\ (snd (loadPosts stored) <> [] <-> parseFailed saved).
Proof.
  split_and!.
  - apply loadPosts_unusable.
  - apply loadPosts_usable.
  - apply loadPosts_logs.
Qed.

(** C9: a stored text that parses to an array is returned as parsed,
    whatever its elements are, and nothing is logged; so a stored empty
    array gives the empty collection, not the seed set. *)
Theorem loadPosts_parsed_array `{Runtime} (stored : gmap string string)
    (s : string) (l : list value) :
  parse_rejects_empty ->
  getItem stored STORAGE_KEY = Some s ->
  JSON_parse s = Ok (VArr l) ->
  loadPosts stored = (l, [])
  /\ (l = [] -> fst (loadPosts stored) <> seedPosts).
Proof.
  unfold parse_rejects_empty, loadPosts. intros Hempty -> Hp. simpl.
  destruct (isEmpty s) eqn:Hs.
  { apply isEmpty_true in Hs as ->. congruence. }
  rewrite Hp. split; [reflexivity|]. intros ->. discriminate.
Qed.

End LoadFacts.

(** ** The form *)

Module FormFacts.
Import JSString JSStringFacts JSValue App Statements.

Lemma parseTags_nonempty (s : string) :
  Forall (fun tag => tag <> EmptyString) (parseTags s).
Proof.
  unfold parseTags. apply List.Forall_forall. intros tag Hin.
  apply List.filter_In in Hin as [_ Hne].
  apply isEmpty_false. destruct (isEmpty tag); [discriminate | reflexivity].
Qed.

Lemma handleSubmit_accepts (atLoad env : Env) (w : World) :
  trim (Draft.title (draft w)) <> EmptyString ->
  trim (Draft.content (draft w)) <> EmptyString ->
  handleSubmit atLoad env w
  = Some (setDraft (setPosts w (obj (newPost env (draft w)) :: posts w))
                   (setField (emptyDraft atLoad) Date (Post.date (newPost env (draft w))))).
Proof.
  intros Ht Hc. unfold handleSubmit.
  apply isEmpty_false in Ht, Hc. rewrite Ht, Hc. reflexivity.
Qed.

Lemma handleSubmit_rejects (atLoad env : Env) (w : World) :
  trim (Draft.title (draft w)) = EmptyString
  \/ trim (Draft.content (draft w)) = EmptyString ->
  handleSubmit atLoad env w = None.
Proof.
  unfold handleSubmit.
  intros [Hb|Hb]; apply isEmpty_true in Hb; rewrite Hb; [|rewrite orb_true_r];
    reflexivity.
Qed.

(** C3, as the code has it: a draft with a title and a content, both
    non-blank, becomes a post: title, summary and content trimmed; the
    draft's date, or today's when the draft has none; the tags split at
    the commas, trimmed, the empty ones dropped.  The id is the one
    [makeId] generates: what [crypto.randomUUID()] returns where the
    runtime has it, and else post- followed by the digits of
    [Date.now()], which is the id of neither seed post and of no post
    this fallback names in another millisecond; nothing compares it with
    the ids the collection holds.  [handleSubmit] puts the post at the
    front of the collection and empties the form but for the date, which
    is the post's; it sets no other state and writes nothing itself. *)
Theorem submit_adds_post (atLoad env : Env) (w : World) :
  trim (Draft.title (draft w)) <> EmptyString ->
  trim (Draft.content (draft w)) <> EmptyString ->
  let d := draft w in
  let used := if isEmpty (Draft.date d) then today env else Draft.date d in
  let generated := match randomUUID env with
                   | Some uuid => uuid
                   | None => ("post-" +:+ decimal (now env))%string
                   end in
  let p := {| Post.id := generated;
              Post.title := trim (Draft.title d);
              Post.date := used;
              Post.tags := List.filter (fun tag => negb (isEmpty tag))
                             (map trim (split (Draft.tags d) ","%char));
              Post.summary := trim (Draft.summary d);
              Post.content := trim (Draft.content d) |} in
  (exists w', handleSubmit atLoad env w = Some w'
              /\ posts w' = obj p :: posts w
              /\ draft w' = {| Draft.title := EmptyString; Draft.date := used;
                               Draft.tags := EmptyString; Draft.summary := EmptyString;
                               Draft.content := EmptyString |}
              /\ query w' = query w /\ showForm w' = showForm w
              /\ localStorage w' = localStorage w /\ console w' = console w)
  /\ (randomUUID env = None ->
      generated <> Post.id seed1 /\ generated <> Post.id seed2
      /\ forall other, randomUUID other = None -> now other <> now env ->
                       makeId other <> generated)
  /\ parseTags "planning, , practice," = ["planning"; "practice"]%string.
Proof.
  intros Ht Hc d used generated p. split_and!; [|intros Hnone|reflexivity].
  - rewrite (handleSubmit_accepts _ _ _ Ht Hc).
    eexists. split; [reflexivity|]. simpl. split_and!; reflexivity.
  - subst generated. rewrite Hnone. split_and!.
    + rewrite app_cons. discriminate.
    + rewrite app_cons. discriminate.
    + intros other Hother Hnow Heq. unfold makeId in Heq. rewrite Hother in Heq.
      apply String.app_inj in Heq. apply decimal_inj in Heq. contradiction.
Qed.

(** C4: a draft whose title or content is blank is not submitted: the
    handler returns before it sets any state, and the event leaves the
    collection, the form, the slot and the console as they were. *)
Theorem submit_blank_is_noop `{Runtime} (atLoad env : Env) (w : World) :
  trim (Draft.title (draft w)) = EmptyString
  \/ trim (Draft.content (draft w)) = EmptyString ->
  handleSubmit atLoad env w = None /\ step atLoad env Submit w = Ok w.
Proof.
  intros Hb. unfold step. rewrite (handleSubmit_rejects _ _ _ Hb). auto.
Qed.

(** C5: a declined reset changes nothing; a confirmed one replaces the
    collection by the seed set, whatever it held, and the slot follows. *)
Theorem reset_declined_or_seeded `{Runtime} (atLoad env : Env) (w : World) :
  (confirmed env = false -> step atLoad env Reset w = Ok w)
  /\ (confirmed env = true ->
      exists w', step atLoad env Reset w = Ok w'
                 /\ posts w' = seedPosts
                 /\ draft w' = draft w /\ query w' = query w
                 /\ getItem (localStorage w') STORAGE_KEY = Some (JSON_stringify seedPosts)).
Proof.
  unfold step, resetPosts. split; intros ->; [reflexivity|].
  eexists. split; [reflexivity|]. simpl.
  split_and!; try reflexivity. apply lookup_insert_eq.
Qed.

(** Typing into one input sets that field of the draft and nothing
    else: the other fields, the collection, the query and the slot stay. *)
Theorem handleChange_one_field `{Runtime} (atLoad env : Env) (w : World)
    (name : field) (v : string) :
  step atLoad env (Change name v) w = Ok (handleChange name v w)
  /\ (forall other, getField (draft (handleChange name v w)) other
                    = if decide (other = name) then v else getField (draft w) other)
  /\ posts (handleChange name v w) = posts w
  /\ query (handleChange name v w) = query w
  /\ localStorage (handleChange name v w) = localStorage w.
Proof.
  split_and!; try reflexivity.
  intros other. destruct name, other; reflexivity.
Qed.

(** What Clear does, at any moment: the form becomes [emptyDraft], whose
    date is the day the module was loaded; the event's own environment
    is not read. *)
Lemma clear_resets_to_load_date `{Runtime} (atLoad env : Env) (w : World) :
  exists w', step atLoad env Clear w = Ok w'
             /\ draft w' = {| Draft.title := EmptyString; Draft.date := today atLoad;
                              Draft.tags := EmptyString; Draft.summary := EmptyString;
                              Draft.content := EmptyString |}
             /\ posts w' = posts w /\ localStorage w' = localStorage w.
Proof. eexists. split; [reflexivity|]. simpl. auto. Qed.

End FormFacts.

(** ** The store *)

Module StoreFacts.
Import JSString JSStringFacts JSValue App Store Statements.

Lemma get_id_obj (p : Post.t) : get (obj p) "id" = Ok (Some (VStr (Post.id p))).
Proof. reflexivity. Qed.

Lemma hasId_get (id : string) (post : value) :
  hasId id post = true <-> get post "id" = Ok (Some (VStr id)).
Proof.
  unfold hasId, idDiffers.
  destruct (get post "id") as [[v|]|e]; simpl; try (split; discriminate).
  destruct v; simpl; try (split; discriminate).
  destruct (String.eqb_spec s id) as [->|Hne]; simpl; split; congruence.
Qed.

Lemma present_ids (id : string) (ps : list value) :
  present id ps = true <-> Ok (Some (VStr id)) ∈ ids ps.
Proof.
  unfold present, ids. rewrite existsb_exists, list_elem_of_fmap. split.
  - intros (post & Hin & Hid). exists post. split.
    + symmetry. apply hasId_get, Hid.
    + apply list_elem_of_In, Hin.
  - intros (post & Hid & Hin). exists post. split.
    + apply list_elem_of_In, Hin.
    + apply hasId_get. symmetry. exact Hid.
Qed.

Lemma absent_ids (id : string) (ps : list value) :
  present id ps = false <-> Ok (Some (VStr id)) ∉ ids ps.
Proof.
  rewrite <- present_ids. destruct (present id ps); split; congruence.
Qed.

Lemma idDiffers_hasId (id : string) (post : value) :
  post <> VNull -> idDiffers id post = Ok (negb (hasId id post)).
Proof.
  intros Hnn. unfold hasId, idDiffers.
  destruct post; try done; simpl;
    try (destruct (own props "id") as [[]|]; simpl; try reflexivity;
         destruct (String.eqb _ _); reflexivity).
Qed.

(** On such a collection [removePost] throws nothing and is a filter. *)
Lemma removePost_filter (id : string) (ps : list value) :
  Forall (fun post => post <> VNull) ps ->
  removePost id ps = Ok (List.filter (fun post => negb (hasId id post)) ps).
Proof.
  unfold removePost. induction 1 as [|post ps Hnn _ IH]; [reflexivity|].
  simpl. rewrite (idDiffers_hasId _ _ Hnn), IH. simpl.
  destruct (hasId id post); reflexivity.
Qed.

Lemma ids_filter (f : value -> bool) (ps : list value) (x : result (option value)) :
  x ∈ ids (List.filter f ps) -> x ∈ ids ps.
Proof.
  unfold ids. rewrite !list_elem_of_fmap. intros (post & -> & Hin).
  exists post. split; [reflexivity|].
  apply list_elem_of_In. apply list_elem_of_In, List.filter_In in Hin. tauto.
Qed.

Lemma sound_filter (f : value -> bool) (ps : list value) :
  sound ps -> sound (List.filter f ps).
Proof.
  intros [Hnn Hnd]. split.
  - apply List.Forall_forall. intros post Hin. apply List.filter_In in Hin as [Hin _].
    rewrite List.Forall_forall in Hnn. auto.
  - clear Hnn. induction ps as [|post ps IH]; simpl; [constructor|].
    apply NoDup_cons in Hnd as [Hnin Hnd].
    destruct (f post); [|auto]. simpl. apply NoDup_cons. split; [|auto].
    intros Hin. apply Hnin. eapply ids_filter, Hin.
Qed.

(** With distinct ids a remove takes one post away when it finds one,
    and none otherwise. *)
Lemma filter_length (id : string) (ps : list value) :
  NoDup (ids ps) ->
  length (List.filter (fun post => negb (hasId id post)) ps)
  + (if present id ps then 1 else 0) = length ps.
Proof.
  induction ps as [|post ps IH]; intros Hnd; [reflexivity|].
  apply NoDup_cons in Hnd as [Hnin Hnd]. specialize (IH Hnd).
  unfold present in *. simpl. destruct (hasId id post) eqn:Hid; simpl.
  - apply hasId_get in Hid. rewrite Hid in Hnin.
    apply absent_ids in Hnin. unfold present in Hnin. rewrite Hnin in IH. lia.
  - destruct (existsb (hasId id) ps); simpl in *; lia.
Qed.

(** A remove of an id no post has leaves the collection as it is. *)
Theorem removePost_absent (id : string) (ps : list value) :
  Forall (fun post => post <> VNull) ps ->
  present id ps = false ->
  removePost id ps = Ok ps.
Proof.
  intros Hnn Habs. rewrite (removePost_filter _ _ Hnn). f_equal.
  unfold present in Habs. clear Hnn.
  induction ps as [|post ps IH]; [reflexivity|]. simpl in *.
  apply orb_false_iff in Habs as [-> Hps]. simpl. f_equal. auto.
Qed.

Lemma sound_add (p : Post.t) (ps : list value) :
  sound ps -> present (Post.id p) ps = false -> sound (add (obj p) ps).
Proof.
  intros [Hnn Hnd] Hfresh. split.
  - constructor; [discriminate | exact Hnn].
  - unfold add, ids. simpl. apply NoDup_cons. split; [|exact Hnd].
    apply absent_ids, Hfresh.
Qed.

Lemma exec_counts (ops : list op) :
  forall (ps : list value) (a r : nat),
    sound ps -> freshAdds ops ps -> length ps + r = a ->
    exists t, exec ops ps a r = Ok t /\ length (store t) + removes t = adds t.
Proof.
  induction ops as [|[p|id] ops IH]; intros ps a r Hs Hf Hlen; simpl in *.
  - eexists. split; [reflexivity|]. simpl. exact Hlen.
  - destruct Hf as [Hfresh Hf]. apply IH; [apply sound_add; assumption | exact Hf |].
    unfold add. simpl. lia.
  - destruct Hs as [Hnn Hnd]. rewrite (removePost_filter _ _ Hnn) in *. simpl.
    apply IH; [apply sound_filter; split; assumption | exact Hf |].
    pose proof (filter_length id ps Hnd). destruct (present id ps); lia.
Qed.

(** C6, as the code has it: from the empty collection, a sequence of adds
    and removes in which every added post brings an id the collection
    does not hold runs without an exception and leaves as many posts as
    there were adds, less the removes that found their post. *)
Theorem length_adds_minus_removes (ops : list op) :
  freshAdds ops [] ->
  exists t, exec ops [] 0 0 = Ok t
            /\ removes t <= adds t
            /\ length (store t) = adds t - removes t.
Proof.
  intros Hf. destruct (exec_counts ops [] 0 0) as (t & Ht & Hlen);
    [split; constructor | exact Hf | reflexivity |].
  exists t. split; [exact Ht | lia].
Qed.

End StoreFacts.

(** ** The invariant along a run *)

Module RunFacts.
Import JSString JSStringFacts JSValue App Store Statements StoreFacts FormFacts LoadFacts.

Section WithRuntime.
Context `{Runtime} (atLoad : Env).

Lemma invariant_sound (ps : list value) : invariant ps -> sound ps.
Proof.
  intros [Hwf Hnd]. split; [|exact Hnd].
  eapply Forall_impl; [exact Hwf|]. simpl.
  intros post [(s & Hget) _] ->. discriminate.
Qed.

Lemma invariant_seedPosts : invariant seedPosts.
Proof.
  split.
  - repeat constructor; try (eexists; reflexivity);
      try (eexists; split; [reflexivity | discriminate]).
    + exists (Post.tags seed1). split; [reflexivity|].
      repeat constructor; discriminate.
    + exists (Post.tags seed2). split; [reflexivity|].
      repeat constructor; discriminate.
  - unfold ids, seedPosts. simpl. apply NoDup_cons. split.
    + intros Hin. apply list_elem_of_singleton in Hin. discriminate.
    + apply NoDup_singleton.
Qed.

Lemma invariant_filter (f : value -> bool) (ps : list value) :
  invariant ps -> invariant (List.filter f ps).
Proof.
  intros Hinv. split.
  - destruct Hinv as [Hwf _]. apply List.Forall_forall. intros post Hin.
    apply List.filter_In in Hin as [Hin _]. rewrite List.Forall_forall in Hwf. auto.
  - apply sound_filter, invariant_sound, Hinv.
Qed.

Lemma invariant_newPost (env : Env) (d : Draft.t) (ps : list value) :
  trim (Draft.title d) <> EmptyString ->
  trim (Draft.content d) <> EmptyString ->
  present (makeId env) ps = false ->
  invariant ps -> invariant (obj (newPost env d) :: ps).
Proof.
  intros Ht Hc Hfresh [Hwf Hnd]. split.
  - constructor; [|exact Hwf]. split_and!.
    + eexists. reflexivity.
    + eexists. split; [reflexivity | exact Ht].
    + eexists. split; [reflexivity | exact Hc].
    + eexists. split; [reflexivity | apply parseTags_nonempty].
  - unfold ids. simpl. apply NoDup_cons. split; [|exact Hnd].
    apply absent_ids, Hfresh.
Qed.

(** One event keeps the invariant, and throws nothing. *)
Lemma step_invariant (env : Env) (ev : event) (w : World) :
  invariant (posts w) ->
  (ev = Submit -> handleSubmit atLoad env w <> None ->
   present (makeId env) (posts w) = false) ->
  exists w', step atLoad env ev w = Ok w' /\ invariant (posts w').
Proof.
  intros Hinv Hfresh. destruct ev as [name v| | |id| |q|]; simpl;
    try (eexists; split; [reflexivity | exact Hinv]).
  - specialize (Hfresh eq_refl). unfold handleSubmit in *.
    destruct (isEmpty (trim (Draft.title (draft w)))) eqn:Ht;
      [eexists; split; [reflexivity | exact Hinv]|].
    destruct (isEmpty (trim (Draft.content (draft w)))) eqn:Hc;
      [eexists; split; [reflexivity | exact Hinv]|].
    simpl in *. eexists. split; [reflexivity|]. simpl.
    apply invariant_newPost; [| |apply Hfresh; discriminate|exact Hinv];
      apply isEmpty_false; assumption.
  - rewrite (removePost_filter id (posts w)); [|apply invariant_sound, Hinv].
    simpl. eexists. split; [reflexivity|]. simpl. apply invariant_filter, Hinv.
  - unfold resetPosts. destruct (confirmed env).
    + eexists. split; [reflexivity|]. simpl. apply invariant_seedPosts.
    + eexists. split; [reflexivity | exact Hinv].
Qed.

Lemma run_invariant (trace : list (Env * event)) :
  forall w, invariant (posts w) -> freshIds atLoad trace w ->
            exists w', run atLoad trace w = Ok w' /\ invariant (posts w').
Proof.
  induction trace as [|[env ev] trace IH]; intros w Hinv Hf; simpl in *.
  - eauto.
  - destruct Hf as [Hfresh Hf].
    destruct (step_invariant env ev w Hinv Hfresh) as (w1 & Hstep & Hinv1).
    rewrite Hstep in *. simpl. apply IH; assumption.
Qed.





Lemma posts_mount (stored : gmap string string) :
  posts (mount atLoad stored) = fst (loadPosts stored).
Proof. unfold mount. destruct (loadPosts stored). reflexivity. Qed.

(** C7, as the code has it: when [loadPosts] found nothing usable, or
    found an array that satisfies the invariant, every run of events in
    which each submit that is accepted generates an id that no post has
    ends in a collection that satisfies the invariant: every post has a
    non-empty title and content, no empty tag, and an id, a string, that
    no other post has.  No handler and no state updater of the run
    throws. *)
Theorem run_keeps_invariant (stored : gmap string string)
    (trace : list (Env * event)) :
  unusable (getItem stored STORAGE_KEY) \/ invariant (fst (loadPosts stored)) ->
  freshIds atLoad trace (mount atLoad stored) ->
  exists w, run atLoad trace (mount atLoad stored) = Ok w /\ invariant (posts w).
Proof.
  intros Hload Hf. apply run_invariant; [|exact Hf].
  rewrite posts_mount. destruct Hload as [Hu|Hinv]; [|exact Hinv].
  rewrite (loadPosts_unusable _ Hu). apply invariant_seedPosts.
Qed.

End WithRuntime.
End RunFacts.

(** ** The view and the store *)

Module MemFacts.
Import JSString JSStringFacts JSValue Mem.

Lemma alloc_extends (h : heap) (elems : list value) :
  h ⊆ (alloc h elems).1 /\ (alloc h elems).1 !! (alloc h elems).2 = Some elems.
Proof.
  unfold alloc. simpl. split.
  - apply insert_subseteq, not_elem_of_dom, is_fresh.
  - apply lookup_insert_eq.
Qed.

Lemma sorted_copy_extends (h : heap) (elems sorted : list value) :
  h ⊆ <[(alloc h elems).2 := sorted]> (alloc h elems).1
  /\ <[(alloc h elems).2 := sorted]> (alloc h elems).1 !! (alloc h elems).2 = Some sorted.
Proof.
  unfold alloc. simpl. rewrite insert_insert_eq. split.
  - apply insert_subseteq, not_elem_of_dom, is_fresh.
  - apply lookup_insert_eq.
Qed.

Section WithRuntime.
Context `{Runtime}.

(** The view allocates and never overwrites: every array of the heap is
    in the heap the view leaves, unchanged. *)
Lemma filteredPosts_extends (h : heap) (posts : loc) (query : string) :
  h ⊆ (filteredPosts h posts query).1.
Proof.
  unfold filteredPosts. destruct (h !! posts) as [elems|]; [|reflexivity].
  destruct (alloc h elems) as [h1 copy] eqn:Ha.
  pose proof (alloc_extends h elems) as [Hsub _].
  pose proof (sorted_copy_extends h elems) as Hsorted.
  rewrite Ha in *. simpl in *.
  destruct (sort App.byDateDesc elems) as [sorted|e]; [|exact Hsub].
  destruct (Hsorted sorted) as [Hsub2 _].
  destruct (isEmpty _); [exact Hsub2|].
  destruct (filterM _ sorted) as [kept|e]; [|exact Hsub2].
  pose proof (alloc_extends (<[copy:=sorted]> h1) kept) as [Hsub3 _].
  exact (transitivity Hsub2 Hsub3).
Qed.

(** The array the view returns is the one the pure [App.filteredPosts]
    computes from the elements of [posts]. *)
Lemma filteredPosts_refines (h : heap) (posts : loc) (query : string)
    (elems : list value) :
  h !! posts = Some elems ->
  deref (filteredPosts h posts query) = App.filteredPosts elems query.
Proof.
  intros Hposts. unfold filteredPosts, App.filteredPosts. rewrite Hposts.
  destruct (alloc h elems) as [h1 copy] eqn:Ha.
  pose proof (sorted_copy_extends h elems) as Hsorted.
  rewrite Ha in *. simpl in *.
  destruct (sort App.byDateDesc elems) as [sorted|e]; [|reflexivity].
  destruct (Hsorted sorted) as [_ Hcopy]. simpl.
  destruct (isEmpty _); [simpl; rewrite Hcopy; reflexivity|].
  destruct (filterM _ sorted) as [kept|e]; [|reflexivity].
  pose proof (alloc_extends (<[copy:=sorted]> h1) kept) as [_ Hr].
  unfold alloc in *. simpl in *. rewrite Hr. reflexivity.
Qed.

(** C10: computing the view leaves every array of the heap as it was, the
    post collection among them, whether or not the computation throws;
    what it returns is a new array.  Typing in the search box sets the
    query and nothing else: the collection and the stored text stay. *)
Theorem view_leaves_store (h : heap) (posts : loc) (query : string) :
  h ⊆ (filteredPosts h posts query).1
  /\ (forall elems, h !! posts = Some elems ->
        (filteredPosts h posts query).1 !! posts = Some elems
        /\ deref (filteredPosts h posts query) = App.filteredPosts elems query
        /\ forall r, (filteredPosts h posts query).2 = Ok r -> r <> posts)
  /\ (forall atLoad env w q,
        App.step atLoad env (App.Search q) w = Ok (App.setQuery w q)
        /\ App.posts (App.setQuery w q) = App.posts w
        /\ App.localStorage (App.setQuery w q) = App.localStorage w
        /\ App.query (App.setQuery w q) = q).
Proof.
  split_and!.
  - apply filteredPosts_extends.
  - intros elems Hposts. split_and!.
    + eapply lookup_weaken; [exact Hposts | apply filteredPosts_extends].
    + apply filteredPosts_refines, Hposts.
    + intros r Hr ->. revert Hr. unfold filteredPosts. rewrite Hposts.
      pose proof (is_fresh (dom h)) as Hfresh.
      unfold alloc at 1. simpl.
      destruct (sort App.byDateDesc elems) as [sorted|e]; [|discriminate].
      destruct (isEmpty _).
      * simpl. intros [= Heq]. apply Hfresh. rewrite Heq.
        apply elem_of_dom. eauto.
      * destruct (filterM _ sorted) as [kept|e]; [|discriminate].
        unfold alloc. simpl. intros [= Heq].
        pose proof (is_fresh (dom (<[fresh (dom h):=sorted]>
                                     (<[fresh (dom h):=elems]> h)))) as Hf2.
        apply Hf2. rewrite Heq. rewrite !dom_insert. 
        apply elem_of_union_r, elem_of_union_r, elem_of_dom. eauto.
  - intros. simpl. auto.
Qed.

End WithRuntime.
End MemFacts.

(** ** The view *)

Module ViewFacts.
Import JSString JSStringFacts JSValue App Statements.

Section WithRuntime.
Context `{Runtime}.

Lemma byDateDesc_obj (a b : Post.t) :
  byDateDesc (obj a) (obj b) = Ok (localeCompare (Post.date b) (Post.date a)).
Proof. reflexivity. Qed.

Lemma insert_obj (x : Post.t) (l : list Post.t) :
  insert byDateDesc (obj x) (map obj l) = Ok (map obj (insertByDate x l)).
Proof.
  induction l as [|y l IH]; [reflexivity|].
  cbn [map insert insertByDate]. rewrite byDateDesc_obj. simpl.
  destruct (_ <=? 0)%Z; [reflexivity|]. rewrite IH. reflexivity.
Qed.

Lemma sort_obj (l : list Post.t) :
  sort byDateDesc (map obj l) = Ok (map obj (sortByDate l)).
Proof.
  induction l as [|x l IH]; [reflexivity|].
  cbn [map sort sortByDate]. rewrite IH. simpl. apply insert_obj.
Qed.

Lemma mapM_strings (f : option value -> result string) (l : list string) :
  (forall s, f (Some (VStr s)) = Ok s) ->
  mapM f (map Some (map VStr l)) = Ok l.
Proof.
  intros Hf. induction l as [|s l IH]; [reflexivity|].
  simpl. rewrite Hf, IH. reflexivity.
Qed.

(** On a post, the haystack is its text, and no exception is thrown. *)
Lemma haystack_obj (p : Post.t) : haystack (obj p) = Ok (text p).
Proof.
  unfold haystack, text, joinValues. simpl.
  rewrite mapM_strings by reflexivity. reflexivity.
Qed.

Lemma filterM_obj (n : string) (l : list Post.t) :
  filterM (fun post => h ← haystack post; Ok (includes h n)) (map obj l)
  = Ok (map obj (List.filter (fun p => includes (text p) n) l)).
Proof.
  induction l as [|p l IH]; [reflexivity|].
  cbn [map filterM List.filter]. rewrite haystack_obj, IH. simpl.
  destruct (includes (text p) n); reflexivity.
Qed.

Lemma insertByDate_perm (x : Post.t) (l : list Post.t) :
  Permutation (insertByDate x l) (x :: l).
Proof.
  induction l as [|y l IH]; simpl; [reflexivity|].
  destruct (_ <=? 0)%Z; [reflexivity|].
  rewrite IH. apply perm_swap.
Qed.

Lemma sortByDate_perm (l : list Post.t) : Permutation (sortByDate l) l.
Proof.
  induction l as [|x l IH]; simpl; [reflexivity|].
  rewrite insertByDate_perm, IH. reflexivity.
Qed.

Lemma insertByDate_sorted (x : Post.t) (l : list Post.t) :
  consistent_comparator ->
  StronglySorted newerFirst l -> StronglySorted newerFirst (insertByDate x l).
Proof.
  intros [Htotal Htrans]. induction 1 as [|y l Hs IH Hy]; simpl.
  - repeat constructor.
  - destruct (Z.leb_spec (localeCompare (Post.date y) (Post.date x)) 0) as [Hle|Hgt].
    + constructor; [constructor; assumption|].
      constructor; [exact Hle|].
      eapply Forall_impl; [exact Hy|]. simpl. intros z Hz.
      unfold newerFirst in *. eapply Htrans; eassumption.
    + constructor; [exact IH|].
      rewrite insertByDate_perm. constructor; [|exact Hy].
      unfold newerFirst. destruct (Htotal (Post.date x) (Post.date y)); [assumption | lia].
Qed.

Lemma sortByDate_sorted (l : list Post.t) :
  consistent_comparator -> StronglySorted newerFirst (sortByDate l).
Proof.
  intros Hc. induction l as [|x l IH]; simpl; [constructor|].
  apply insertByDate_sorted; assumption.
Qed.

(** Outside the shape of a post the view can throw: a [null] element has
    no properties, and two objects without a date cannot be compared. *)
Example view_throws_without_shape :
  filteredPosts [VNull] "plan" = Throw TypeError
  /\ filteredPosts [VObj []; VObj []] EmptyString = Throw TypeError.
Proof. split; reflexivity. Qed.

Lemma insertByDate_stable (d : string) (x : Post.t) (l : list Post.t) :
  consistent_comparator ->
  List.filter (datedLike d) (insertByDate x l) = List.filter (datedLike d) (x :: l).
Proof.
  intros [_ Htrans]. induction l as [|y l IH]; [reflexivity|].
  cbn [insertByDate].
  destruct (Z.leb_spec (localeCompare (Post.date y) (Post.date x)) 0) as [Hle|Hgt];
    [reflexivity|].
  cbn [List.filter] in *. rewrite IH.
  destruct (datedLike d y) eqn:Hy, (datedLike d x) eqn:Hx; try reflexivity.
  unfold datedLike in *.
  apply andb_true_iff in Hy as [_ Hy], Hx as [Hx _].
  apply Z.leb_le in Hy, Hx.
  pose proof (Htrans _ _ _ Hy Hx). lia.
Qed.

(** The sort is stable: the posts of one date keep the order they have
    in the collection; and the empty query shows the sorted list. *)
Theorem view_sort_is_stable (ps : list Post.t) (d : string) :
  consistent_comparator ->
  filteredPosts (map obj ps) EmptyString = Ok (map obj (sortByDate ps))
  /\ List.filter (datedLike d) (sortByDate ps) = List.filter (datedLike d) ps.
Proof.
  intros Hc. split.
  - unfold filteredPosts. rewrite sort_obj. reflexivity.
  - induction ps as [|x ps IH]; [reflexivity|].
    cbn [sortByDate]. rewrite (insertByDate_stable _ _ _ Hc).
    cbn [List.filter]. rewrite IH. reflexivity.
Qed.

(** C1: on a collection of posts the view throws nothing.  It is the
    collection sorted by date, newest first, when the trimmed,
    lower-cased query is empty; otherwise it keeps, in that order, the
    posts whose text has the trimmed, lower-cased query as a substring.
    So the query PLAN finds the first seed post by its tag planning. *)
Theorem view_sorts_then_filters (ps : list Post.t) (query : string) :
  consistent_comparator ->
  let normalized := toLowerCase (trim query) in
  exists sorted,
    Permutation sorted ps
    /\ StronglySorted newerFirst sorted
    /\ filteredPosts (map obj ps) query
       = Ok (map obj (if isEmpty normalized then sorted
                      else List.filter (fun p => includes (text p) normalized) sorted))
    /\ (forall p, includes (text p) normalized = true
                  <-> exists pre suf, text p = pre +:+ normalized +:+ suf)
    /\ (In "planning"%string (Post.tags seed1)
        /\ filteredPosts [obj seed1] "PLAN" = Ok [obj seed1]
        /\ filteredPosts [obj seed2] "PLAN" = Ok []).
Proof.
  intros Hc normalized. exists (sortByDate ps). split_and!.
  - apply sortByDate_perm.
  - apply sortByDate_sorted, Hc.
  - unfold filteredPosts. rewrite sort_obj. simpl. fold normalized.
    destruct (isEmpty normalized); [reflexivity | apply filterM_obj].
  - intros p. apply includes_substring.
  - simpl. auto.
  - reflexivity.
  - reflexivity.
Qed.

End WithRuntime.
End ViewFacts.

(** ** Runs *)

Module Runs.
Import JSString JSStringFacts JSValue App Store Statements.
Import LoadFacts FormFacts StoreFacts RunFacts ViewFacts.

Lemma demo_rejects_empty : parse_rejects_empty (H := Demo.runtime).
Proof. reflexivity. Qed.

Lemma compare_trans_le (a b c : string) :
  String.compare a b <> Gt -> String.compare b c <> Gt -> String.compare a c <> Gt.
Proof.
  intros Hab Hbc.
  destruct (String.compare a b) eqn:Eab; [| |done].
  { apply String_as_OT.cmp_eq in Eab as ->. exact Hbc. }
  destruct (String.compare b c) eqn:Ebc; [| |done].
  { apply String_as_OT.cmp_eq in Ebc as ->. rewrite Eab. discriminate. }
  apply String_as_OT.cmp_lt in Eab, Ebc.
  pose proof (String_as_OT.lt_trans _ _ _ Eab Ebc) as Hac.
  apply String_as_OT.cmp_lt in Hac. unfold String_as_OT.cmp in Hac.
  rewrite Hac. discriminate.
Qed.

Lemma codeUnitCompare_le (a b : string) :
  (Demo.codeUnitCompare a b <= 0)%Z <-> String.compare a b <> Gt.
Proof.
  unfold Demo.codeUnitCompare. destruct (String.compare a b); split; (lia || done).
Qed.

(** Code unit order is a consistent comparison. *)
Lemma demo_consistent : consistent_comparator (H := Demo.runtime).
Proof.
  split; simpl.
  - intros a b. rewrite !codeUnitCompare_le, (String.compare_antisym b a).
    destruct (String.compare a b); simpl; [left | left | right]; discriminate.
  - intros a b c. rewrite !codeUnitCompare_le. apply compare_trans_le.
Qed.

(** The two seed posts, stored oldest first, and the query PLAN between
    spaces. *)
Lemma view_sorts_then_filters_run :
  consistent_comparator (H := Demo.runtime)
  /\ exists sorted,
       Permutation sorted [seed2; seed1]
       /\ StronglySorted (newerFirst (H := Demo.runtime)) sorted
       /\ filteredPosts (map obj [seed2; seed1]) " PLAN "
          = Ok (map obj (List.filter (fun p => includes (text p) "plan") sorted)).
Proof.
  split; [exact demo_consistent|].
  destruct (view_sorts_then_filters (H := Demo.runtime) [seed2; seed1] " PLAN "
              demo_consistent) as (sorted & Hperm & Hsorted & Hview & _).
  exists sorted. split_and!; [exact Hperm | exact Hsorted | exact Hview].
Defined.

(** A stored array of one empty object. *)
Lemma loadPosts_parsed_array_run :
  loadPosts (Demo.holding "[{}]") = ([VObj []], [])
  /\ ([VObj []] = [] -> fst (loadPosts (Demo.holding "[{}]")) <> seedPosts).
Proof.
  exact (loadPosts_parsed_array (H := Demo.runtime) (Demo.holding "[{}]") "[{}]" [VObj []]
           demo_rejects_empty (lookup_singleton_eq _ _) eq_refl).
Defined.

(** The empty text is stored: [JSON.parse] would reject it, and
    [loadPosts], which does not parse it, logs nothing. *)
Lemma empty_text_not_logged :
  JSON_parse (Runtime := Demo.runtime) EmptyString = Throw SyntaxError
  /\ getItem (Demo.holding EmptyString) STORAGE_KEY = Some EmptyString
  /\ loadPosts (Demo.holding EmptyString) = (seedPosts, []).
Proof. split_and!; reflexivity. Qed.

(** The draft " Test " / "Body" with the tags "planning, , practice," and
    no date, submitted the day after the page was loaded, in a runtime
    without [crypto.randomUUID]. *)
Lemma submit_adds_post_run :
  exists w',
    handleSubmit Demo.atLoad Demo.nextDay (Demo.editing Demo.someDraft) = Some w'
    /\ posts w' = obj {| Post.id := "post-1769677200000";
                          Post.title := "Test";
                          Post.date := "2026-01-29";
                          Post.tags := ["planning"; "practice"];
                          Post.summary := EmptyString;
                          Post.content := "Body" |} :: seedPosts
    /\ draft w' = {| Draft.title := EmptyString; Draft.date := "2026-01-29";
                     Draft.tags := EmptyString; Draft.summary := EmptyString;
                     Draft.content := EmptyString |}.
Proof.
  destruct (submit_adds_post Demo.atLoad Demo.nextDay (Demo.editing Demo.someDraft))
    as [(w' & Hsubmit & Hposts & Hdraft & _) _]; [discriminate | discriminate |].
  exists w'. split_and!; [exact Hsubmit | exact Hposts | exact Hdraft].
Defined.

(** A draft whose title is two spaces. *)
Lemma submit_blank_is_noop_run :
  handleSubmit Demo.atLoad Demo.nextDay (Demo.editing Demo.blankTitle) = None
  /\ step Demo.atLoad Demo.nextDay Submit (Demo.editing Demo.blankTitle)
     = Ok (Demo.editing Demo.blankTitle).
Proof.
  exact (submit_blank_is_noop (H := Demo.runtime) Demo.atLoad Demo.nextDay
           (Demo.editing Demo.blankTitle) (or_introl eq_refl)).
Defined.

(** C8 on the code: the page was loaded on 28 January; Clear is pressed
    on 29 January and the form's date becomes 28 January. *)
Example clear_on_the_next_day :
  today Demo.atLoad = "2026-01-28"%string
  /\ today Demo.nextDay = "2026-01-29"%string
  /\ exists w', step Demo.atLoad Demo.nextDay Clear (Demo.editing Demo.someDraft) = Ok w'
                /\ Draft.date (draft w') = "2026-01-28"%string
                /\ Draft.date (draft w') <> today Demo.nextDay.
Proof.
  split_and!; try reflexivity. eexists. split_and!; [reflexivity | reflexivity | discriminate].
Qed.

Definition first : Post.t := newPost Demo.nextDay Demo.someDraft.
Definition second : Post.t :=
  newPost Demo.nextDay (setField Demo.someDraft Title "Again").

(** Two posts with different ids are added, the first is removed, and a
    remove of an id nobody has changes nothing. *)
Lemma length_adds_minus_removes_run :
  exists t, exec [OpAdd seed1; OpAdd first; OpRemove "seed-1"; OpRemove "seed-2"] [] 0 0 = Ok t
            /\ removes t <= adds t
            /\ length (store t) = adds t - removes t.
Proof.
  apply (length_adds_minus_removes [OpAdd seed1; OpAdd first; OpRemove "seed-1"; OpRemove "seed-2"]).
  simpl. auto.
Defined.

(** A post is submitted; the form is filled again and submitted in the
    same millisecond, in a runtime without [crypto.randomUUID]: the
    second post gets the id the first has, an id the collection holds
    already. *)
Lemma second_submit_same_id :
  exists w1 w2,
    handleSubmit Demo.atLoad Demo.nextDay (Demo.editing Demo.someDraft) = Some w1
    /\ handleSubmit Demo.atLoad Demo.nextDay
         (setDraft w1 (setField Demo.someDraft Title "Again")) = Some w2
    /\ posts w1 = obj first :: seedPosts
    /\ posts w2 = obj second :: obj first :: seedPosts
    /\ Post.id second = Post.id first
    /\ present (Post.id second) (posts w1) = true.
Proof. do 2 eexists. split_and!; reflexivity. Qed.

(** Two submits in the same millisecond, in a runtime without
    [crypto.randomUUID], give two posts one id; one remove takes both.
    Two adds and one successful remove leave no post. *)
Lemma same_millisecond_same_id :
  Post.id first = Post.id second
  /\ exec [OpAdd first; OpAdd second; OpRemove (Post.id first)] [] 0 0
     = Ok {| store := []; adds := 2; removes := 1 |}
  /\ (posts <$> run (H := Demo.runtime) Demo.atLoad
                   [ (Demo.nextDay, Change Title "Test"); (Demo.nextDay, Change Content "Body");
                     (Demo.nextDay, Submit);
                     (Demo.nextDay, Change Title "Again"); (Demo.nextDay, Change Content "Body");
                     (Demo.nextDay, Submit);
                     (Demo.nextDay, Remove "post-1769677200000") ]
                   (mount Demo.atLoad (Demo.holding "[]"))) = Ok [].
Proof. split_and!; reflexivity. Qed.

(** Nothing is stored; a post is written and submitted; Submit is
    clicked again in the same millisecond, on the form the first submit
    emptied, and is turned down; the first seed post is deleted, and the
    collection is reset. *)
Lemma run_keeps_invariant_run :
  exists w,
    run (H := Demo.runtime) Demo.atLoad
      [ (Demo.nextDay, Change Title "Test"); (Demo.nextDay, Change Content "Body");
        (Demo.nextDay, Submit); (Demo.nextDay, Submit);
        (Demo.nextDay, Remove "seed-1"); (Demo.atLoad, Reset) ]
      (mount Demo.atLoad ∅) = Ok w
    /\ invariant (posts w).
Proof.
  apply (run_keeps_invariant (H := Demo.runtime) Demo.atLoad ∅).
  - left. left. reflexivity.
  - simpl. split_and!; done.
Defined.

(** A stored array of one empty object is loaded as it is: a post with
    no title. *)
Lemma loaded_post_without_title :
  posts (mount (H := Demo.runtime) Demo.atLoad (Demo.holding "[{}]")) = [VObj []]
  /\ ~ invariant [VObj []].
Proof.
  split; [reflexivity|].
  intros [Hwf _]. inversion Hwf as [|? ? (_ & (s & Hget & _) & _) _]. discriminate.
Qed.

(** The seed set, and an id neither seed post has. *)
Lemma removePost_absent_run : removePost "seed-3" seedPosts = Ok seedPosts.
Proof.
  apply (removePost_absent "seed-3" seedPosts); [|reflexivity].
  repeat constructor; discriminate.
Defined.

(** The seed posts, oldest first, and a copy of the first seed post
    behind them: the copy stays behind its original. *)
Lemma view_sort_is_stable_run :
  filteredPosts (H := Demo.runtime) (map obj [seed2; seed1; seed1]) EmptyString
  = Ok (map obj (sortByDate (H := Demo.runtime) [seed2; seed1; seed1]))
  /\ List.filter (datedLike (H := Demo.runtime) "2026-01-28")
       (sortByDate (H := Demo.runtime) [seed2; seed1; seed1])
     = List.filter (datedLike (H := Demo.runtime) "2026-01-28") [seed2; seed1; seed1].
Proof.
  exact (view_sort_is_stable (H := Demo.runtime) [seed2; seed1; seed1] "2026-01-28"
           demo_consistent).
Defined.

End Runs.

(** * Further properties *)

(** ** More on strings *)

Module StringLaws.
Import JSString Statements JSStringFacts.

Lemma app_assoc (a b c : string) : (a +:+ b) +:+ c = a +:+ b +:+ c.
Proof.
  induction a as [|x a IH]; [reflexivity|].
  rewrite !app_cons, IH. reflexivity.
Qed.

Lemma app_empty_r (a : string) : a +:+ EmptyString = a.
Proof. induction a as [|x a IH]; [reflexivity|]. rewrite app_cons, IH. reflexivity. Qed.

Lemma allWhite_nil : allWhite EmptyString.
Proof. constructor. Qed.

Lemma allWhite_cons (c : ascii) (s : string) :
  allWhite (String c s) <-> isWhiteSpace c = true /\ allWhite s.
Proof.
  unfold allWhite. simpl. split.
  - inversion 1; auto.
  - intros [Hc Hs]. constructor; assumption.
Qed.

Lemma allWhite_app (a b : string) :
  allWhite (a +:+ b) <-> allWhite a /\ allWhite b.
Proof.
  induction a as [|x a IH].
  - rewrite app_nil. split; [intros Hb; split; [constructor | exact Hb] | tauto].
  - rewrite app_cons, !allWhite_cons, IH. tauto.
Qed.

Lemma trimStart_empty (s : string) : trimStart s = EmptyString <-> allWhite s.
Proof.
  induction s as [|c s IH]; simpl.
  - split; [constructor | reflexivity].
  - rewrite allWhite_cons. destruct (isWhiteSpace c) eqn:Hc.
    + rewrite IH. tauto.
    + split; [discriminate | intros [Hw _]; discriminate].
Qed.

Lemma trimEnd_empty (s : string) : trimEnd s = EmptyString <-> allWhite s.
Proof.
  induction s as [|c s IH]; simpl.
  - split; [constructor | reflexivity].
  - rewrite allWhite_cons. destruct (trimEnd s) eqn:Ht.
    + destruct (isWhiteSpace c) eqn:Hc.
      * split; [intros _; split; [reflexivity | apply IH; reflexivity] | reflexivity].
      * split; [discriminate | intros [Hw _]; discriminate].
    + split; [discriminate|]. intros [_ Hs]. apply IH in Hs. discriminate.
Qed.

(** [trim] gives the empty string for white space, and only for it. *)
Lemma trim_empty (s : string) : trim s = EmptyString <-> allWhite s.
Proof.
  unfold trim. rewrite trimEnd_empty.
  destruct (trimStart_decompose s) as (l & Hs & Hl).
  rewrite Hs at 2. rewrite allWhite_app. tauto.
Qed.

Lemma trimStart_white (l s : string) :
  allWhite l -> trimStart (l +:+ s) = trimStart s.
Proof.
  induction l as [|c l IH]; [reflexivity|].
  rewrite allWhite_cons, app_cons. intros [Hc Hl]. simpl. rewrite Hc. auto.
Qed.

Lemma trimEnd_white (s r : string) :
  allWhite r -> trimEnd (s +:+ r) = trimEnd s.
Proof.
  intros Hr. induction s as [|c s IH].
  - rewrite app_nil. apply trimEnd_empty, Hr.
  - rewrite app_cons. simpl. rewrite IH. reflexivity.
Qed.

Lemma trimStart_app (s r : string) :
  trimStart s <> EmptyString -> trimStart (s +:+ r) = trimStart s +:+ r.
Proof.
  induction s as [|c s IH]; [done|].
  rewrite app_cons. simpl. destruct (isWhiteSpace c); [exact IH | reflexivity].
Qed.

(** White space around a text does not change what [trim] returns. *)
Lemma trim_white (l s r : string) :
  allWhite l -> allWhite r -> trim (l +:+ s +:+ r) = trim s.
Proof.
  intros Hl Hr. unfold trim. rewrite (trimStart_white _ _ Hl).
  destruct (trimStart s) eqn:Hs.
  - apply trimStart_empty in Hs.
    assert (Hsr : allWhite (s +:+ r)) by (apply allWhite_app; auto).
    apply trimStart_empty in Hsr. rewrite Hsr. reflexivity.
  - rewrite trimStart_app by congruence. rewrite Hs. apply trimEnd_white, Hr.
Qed.

Lemma trimStart_idempotent (s : string) : trimStart (trimStart s) = trimStart s.
Proof.
  induction s as [|c s IH]; simpl; [reflexivity|].
  destruct (isWhiteSpace c) eqn:Hc; [exact IH|]. simpl. rewrite Hc. reflexivity.
Qed.

Lemma trimEnd_idempotent (s : string) : trimEnd (trimEnd s) = trimEnd s.
Proof.
  induction s as [|c s IH]; simpl; [reflexivity|].
  destruct (trimEnd s) as [|d t] eqn:Ht.
  - destruct (isWhiteSpace c) eqn:Hc; simpl; [reflexivity|]. rewrite Hc. reflexivity.
  - simpl in *. rewrite IH. reflexivity.
Qed.

Lemma trimStart_trimEnd (s : string) :
  trimStart s = s -> trimStart (trimEnd s) = trimEnd s.
Proof.
  intros Hs. destruct (trimEnd s) as [|c t] eqn:Ht; [reflexivity|].
  destruct (trimEnd_head _ _ _ Ht) as [t' ->].
  simpl. rewrite (trimStart_head _ _ _ Hs). reflexivity.
Qed.

(** Trimming twice is trimming once. *)
Lemma trim_idempotent (s : string) : trim (trim s) = trim s.
Proof.
  unfold trim. rewrite (trimStart_trimEnd _ (trimStart_idempotent s)).
  apply trimEnd_idempotent.
Qed.

Lemma isWhiteSpace_lowerChar (c : ascii) : isWhiteSpace (lowerChar c) = isWhiteSpace c.
Proof. destruct c as [[] [] [] [] [] [] [] []]; reflexivity. Qed.

Lemma trimStart_toLowerCase (s : string) :
  trimStart (toLowerCase s) = toLowerCase (trimStart s).
Proof.
  induction s as [|c s IH]; simpl; [reflexivity|].
  rewrite isWhiteSpace_lowerChar. destruct (isWhiteSpace c); [exact IH | reflexivity].
Qed.

Lemma trimEnd_toLowerCase (s : string) :
  trimEnd (toLowerCase s) = toLowerCase (trimEnd s).
Proof.
  induction s as [|c s IH]; simpl; [reflexivity|].
  rewrite IH, isWhiteSpace_lowerChar.
  destruct (trimEnd s); simpl; [destruct (isWhiteSpace c)|]; reflexivity.
Qed.

(** Lower-casing and trimming commute. *)
Lemma trim_toLowerCase (s : string) : trim (toLowerCase s) = toLowerCase (trim s).
Proof.
  unfold trim. rewrite trimStart_toLowerCase. apply trimEnd_toLowerCase.
Qed.

(** A substring of a substring is a substring. *)
Lemma includes_trans (s mid needle : string) :
  includes mid needle = true -> includes s mid = true -> includes s needle = true.
Proof.
  rewrite !includes_substring.
  intros (p1 & s1 & ->) (p2 & s2 & ->).
  exists (p2 +:+ p1), (s1 +:+ s2). rewrite !app_assoc. reflexivity.
Qed.

Lemma chars_app (a b : string) :
  list_ascii_of_string (a +:+ b) = list_ascii_of_string a ++ list_ascii_of_string b.
Proof.
  induction a as [|c a IH]; [reflexivity|]. rewrite app_cons. simpl. rewrite IH. reflexivity.
Qed.

(** [trim] brings in no code unit. *)
Lemma trim_chars (s : string) (c : ascii) :
  In c (list_ascii_of_string (trim s)) -> In c (list_ascii_of_string s).
Proof.
  destruct (trim_decompose s) as (l & r & Hs & _). intros Hin.
  rewrite Hs at 1. rewrite !chars_app, !in_app_iff. auto.
Qed.

End StringLaws.

(** ** Identifiers *)

Module IdFacts.
Import JSString JSValue App.

(** Without [crypto.randomUUID] two calls of [makeId] give the same id
    exactly when the clock shows the same millisecond; the id then begins
    with post-, so it is the id of neither seed post. *)
Theorem makeId_fallback_by_millisecond (e1 e2 : Env) :
  randomUUID e1 = None ->
  randomUUID e2 = None ->
  (makeId e1 = makeId e2 <-> now e1 = now e2)
  /\ String.prefix "post-" (makeId e1) = true
  /\ makeId e1 <> Post.id seed1 /\ makeId e1 <> Post.id seed2.
Proof.
  unfold makeId. intros -> ->. split_and!.
  - split; [|intros ->; reflexivity].
    intros Heq. apply String.app_inj in Heq. apply JSStringFacts.decimal_inj, Heq.
  - apply JSStringFacts.prefix_app. eauto.
  - rewrite JSStringFacts.app_cons. discriminate.
  - rewrite JSStringFacts.app_cons. discriminate.
Qed.

End IdFacts.

(** ** Removing *)

Module RemoveFacts.
Import JSString JSValue App Store Statements StoreFacts.

Lemma idDiffers_null (id : string) : idDiffers id VNull = Throw TypeError.
Proof. reflexivity. Qed.

(** Either the collection holds a [null], and every remove throws, or it
    holds none, and a remove is a filter. *)
Lemma removePost_cases (ps : list value) :
  (In VNull ps /\ forall id, removePost id ps = Throw TypeError)
  \/ (Forall (fun post => post <> VNull) ps
      /\ forall id, removePost id ps
                    = Ok (List.filter (fun post => negb (hasId id post)) ps)).
Proof.
  induction ps as [|post ps IH].
  - right. split; [constructor | reflexivity].
  - assert (Hcase : post = VNull \/ post <> VNull)
      by (destruct post; (left; reflexivity) || (right; discriminate)).
    destruct Hcase as [->|Hne].
    + left. split; [left; reflexivity | reflexivity].
    + destruct IH as [[Hin Hthrow]|[Hnn Hok]].
      * left. split; [right; exact Hin|]. intros id.
        specialize (Hthrow id). unfold removePost in *. simpl.
        rewrite (idDiffers_hasId _ _ Hne), Hthrow. reflexivity.
      * right. split; [constructor; assumption|]. intros id.
        apply removePost_filter. constructor; assumption.
Qed.

Lemma filter_comm {A} (f g : A -> bool) (l : list A) :
  List.filter f (List.filter g l) = List.filter g (List.filter f l).
Proof.
  induction l as [|x l IH]; [reflexivity|]. simpl.
  destruct (f x) eqn:Hf, (g x) eqn:Hg; simpl; rewrite ?Hf, ?Hg, IH; reflexivity.
Qed.

Lemma filter_twice {A} (f : A -> bool) (l : list A) :
  List.filter f (List.filter f l) = List.filter f l.
Proof.
  induction l as [|x l IH]; [reflexivity|]. simpl.
  destruct (f x) eqn:Hf; simpl; rewrite ?Hf, IH; reflexivity.
Qed.

Lemma filter_nonnull (f : value -> bool) (ps : list value) :
  Forall (fun post => post <> VNull) ps ->
  Forall (fun post => post <> VNull) (List.filter f ps).
Proof.
  intros Hnn. apply List.Forall_forall. intros post Hin.
  apply List.filter_In in Hin as [Hin _]. rewrite List.Forall_forall in Hnn. auto.
Qed.

Lemma filter_sublist {A} (f : A -> bool) (l : list A) : sublist (List.filter f l) l.
Proof.
  induction l as [|x l IH]; simpl; [constructor|].
  destruct (f x); [apply sublist_skip | apply sublist_cons]; exact IH.
Qed.

Lemma present_filter (id : string) (ps : list value) :
  present id (List.filter (fun post => negb (hasId id post)) ps) = false.
Proof.
  unfold present. induction ps as [|post ps IH]; [reflexivity|]. simpl.
  destruct (hasId id post) eqn:Hid; simpl; [exact IH|]. rewrite Hid. exact IH.
Qed.

(** [removePost] throws a TypeError when the collection holds a [null],
    whatever the id.  Otherwise it returns the collection without the
    posts of that id, in their order: no post of that id is left, and
    every other post stays. *)
Theorem removePost_outcome (id : string) (ps : list value) :
  (In VNull ps -> removePost id ps = Throw TypeError)
  /\ (~ In VNull ps ->
      exists ps', removePost id ps = Ok ps'
                  /\ present id ps' = false
                  /\ sublist ps' ps
                  /\ forall post, In post ps -> hasId id post = false -> In post ps').
Proof.
  destruct (removePost_cases ps) as [[Hin Hthrow]|[Hnn Hok]].
  - split; [intros _; apply Hthrow | intros Hnin; destruct (Hnin Hin)].
  - split.
    + intros Hin. rewrite List.Forall_forall in Hnn. destruct (Hnn _ Hin eq_refl).
    + intros _. eexists. split; [apply Hok|]. split_and!.
      * apply present_filter.
      * apply filter_sublist.
      * intros post Hin Hid. apply List.filter_In. rewrite Hid. auto.
Qed.

(** Two removes can be done in either order, and a remove done twice is
    a remove done once; this holds for the exception too. *)
Theorem removePost_commutes (a b : string) (ps : list value) :
  (ps1 ← removePost a ps; removePost b ps1) = (ps1 ← removePost b ps; removePost a ps1)
  /\ (ps1 ← removePost a ps; removePost a ps1) = removePost a ps.
Proof.
  destruct (removePost_cases ps) as [[Hin Hthrow]|[Hnn Hok]].
  - rewrite !Hthrow. split; reflexivity.
  - rewrite !Hok. simpl.
    rewrite !removePost_filter by (apply filter_nonnull, Hnn).
    split; [f_equal; apply filter_comm | f_equal; apply filter_twice].
Qed.

End RemoveFacts.

(** ** More on the form *)

Module FormLaws.
Import JSString JSValue App Store Statements JSStringFacts StringLaws StoreFacts.

(** A tag as [parseTags] leaves it: not empty, no white space at its
    ends, no comma. *)
Definition cleanTag (tag : string) : Prop :=
  tag <> EmptyString /\ trim tag = tag /\ ~ In ","%char (list_ascii_of_string tag).

(** [handleSubmit] returns early exactly when the title or the content
    is white space from end to end, the empty text included; the
    environment plays no part in that. *)
Theorem handleSubmit_rejects_white (atLoad env : Env) (w : World) :
  (handleSubmit atLoad env w = None
   <-> allWhite (Draft.title (draft w)) \/ allWhite (Draft.content (draft w)))
  /\ (allWhite EmptyString /\ allWhite " " /\ ~ allWhite " a ").
Proof.
  split.
  - rewrite <- !trim_empty, <- !isEmpty_true. unfold handleSubmit.
    destruct (isEmpty (trim (Draft.title (draft w)))),
             (isEmpty (trim (Draft.content (draft w)))); simpl;
      split; try tauto; try discriminate; intros [|]; discriminate.
  - split_and!; [constructor | repeat constructor |].
    intros Hw. apply trim_empty in Hw. discriminate.
Qed.

(** A second Submit with no typing in between does nothing, whether the
    first was accepted (it emptied the form) or rejected; and neither
    does a Submit after Clear. *)
Theorem submit_twice_is_once `{Runtime} (atLoad env1 env2 env3 : Env) (w : World) :
  (w1 ← step atLoad env1 Submit w; step atLoad env2 Submit w1) = step atLoad env1 Submit w
  /\ (w1 ← step atLoad env1 Clear w; step atLoad env3 Submit w1) = step atLoad env1 Clear w.
Proof.
  split; [|reflexivity].
  unfold step, handleSubmit.
  destruct (isEmpty (trim (Draft.title (draft w)))
            || isEmpty (trim (Draft.content (draft w)))) eqn:Hb; simpl.
  - rewrite Hb. reflexivity.
  - reflexivity.
Qed.

Lemma filter_absent (id : string) (ps : list value) :
  present id ps = false ->
  List.filter (fun post => negb (hasId id post)) ps = ps.
Proof.
  unfold present. induction ps as [|post ps IH]; [reflexivity|]. simpl.
  intros Habs. apply orb_false_iff in Habs as [-> Hps]. simpl. f_equal. auto.
Qed.

(** Submitting a post and deleting it again gives the collection back,
    and the stored text with it, when the post's id was new and the
    collection holds no [null]. *)
Theorem submit_then_delete `{Runtime} (atLoad env env' : Env) (w : World) :
  trim (Draft.title (draft w)) <> EmptyString ->
  trim (Draft.content (draft w)) <> EmptyString ->
  Forall (fun post => post <> VNull) (posts w) ->
  present (makeId env) (posts w) = false ->
  exists w2, run atLoad [(env, Submit); (env', Remove (makeId env))] w = Ok w2
             /\ posts w2 = posts w
             /\ getItem (localStorage w2) STORAGE_KEY = Some (JSON_stringify (posts w)).
Proof.
  intros Ht Hc Hnn Hfresh. simpl.
  rewrite (FormFacts.handleSubmit_accepts _ _ _ Ht Hc). simpl.
  rewrite removePost_filter by (constructor; [discriminate | exact Hnn]).
  cbn [List.filter]. unfold add.
  assert (Hid : hasId (makeId env) (obj (newPost env (draft w))) = true)
    by (apply hasId_get; reflexivity).
  rewrite Hid. simpl. rewrite (filter_absent _ _ Hfresh).
  eexists. split; [reflexivity|]. simpl. split; [reflexivity|].
  apply lookup_insert_eq.
Qed.

End FormLaws.

(** ** Tags *)

Module TagFacts.
Import JSString JSValue App Statements JSStringFacts StringLaws FormLaws.

Lemma split_no_sep (a : string) (sep : ascii) :
  ~ In sep (list_ascii_of_string a) -> split a sep = [a].
Proof.
  induction a as [|c a IH]; [reflexivity|]. simpl. intros Hnin.
  destruct (Ascii.eqb_spec c sep) as [->|Hne]; [tauto|].
  rewrite IH by tauto. reflexivity.
Qed.

Lemma split_at_sep (a b : string) (sep : ascii) :
  ~ In sep (list_ascii_of_string a) ->
  split (a +:+ String sep b) sep = a :: split b sep.
Proof.
  induction a as [|c a IH]; intros Hnin.
  - rewrite app_nil. simpl. rewrite Ascii.eqb_refl. reflexivity.
  - rewrite app_cons. simpl in *.
    destruct (Ascii.eqb_spec c sep) as [->|Hne]; [tauto|].
    rewrite IH by tauto. reflexivity.
Qed.

Lemma white_no_comma (l : string) :
  allWhite l -> ~ In ","%char (list_ascii_of_string l).
Proof.
  unfold allWhite. rewrite List.Forall_forall. intros Hw Hin.
  specialize (Hw _ Hin). discriminate.
Qed.

Lemma parseTags_white (l : string) : allWhite l -> parseTags l = [].
Proof.
  intros Hl. unfold parseTags. rewrite split_no_sep by (apply white_no_comma, Hl).
  simpl. apply trim_empty in Hl. rewrite Hl. reflexivity.
Qed.

Lemma parseTags_one (l tag : string) :
  allWhite l -> cleanTag tag -> parseTags (l +:+ tag) = [tag].
Proof.
  intros Hl (Hne & Htrim & Hcomma). unfold parseTags.
  rewrite split_no_sep.
  - pose proof (trim_white l tag EmptyString Hl allWhite_nil) as Ht.
    rewrite app_empty_r, Htrim in Ht.
    apply isEmpty_false in Hne. simpl. rewrite Ht, Hne. reflexivity.
  - rewrite chars_app, in_app_iff. intros [Hin|Hin]; [|tauto].
    exact (white_no_comma _ Hl Hin).
Qed.

Lemma parseTags_more (l tag rest : string) :
  allWhite l -> cleanTag tag ->
  parseTags (l +:+ tag +:+ String ","%char rest) = tag :: parseTags rest.
Proof.
  intros Hl (Hne & Htrim & Hcomma). unfold parseTags.
  rewrite <- app_assoc, split_at_sep.
  - pose proof (trim_white l tag EmptyString Hl allWhite_nil) as Ht.
    rewrite app_empty_r, Htrim in Ht.
    apply isEmpty_false in Hne. simpl. rewrite Ht, Hne. reflexivity.
  - rewrite chars_app, in_app_iff. intros [Hin|Hin]; [|tauto].
    exact (white_no_comma _ Hl Hin).
Qed.

Lemma parseTags_join (tags : list string) :
  Forall cleanTag tags ->
  forall l, allWhite l -> parseTags (l +:+ join tags ", ") = tags.
Proof.
  induction 1 as [|tag tags Htag Htags IH]; intros l Hl.
  - unfold join. simpl. rewrite app_empty_r. apply parseTags_white, Hl.
  - destruct tags as [|next tags].
    + apply parseTags_one; assumption.
    + rewrite join_cons. rewrite app_cons.
      rewrite (parseTags_more l tag _ Hl Htag). f_equal.
      apply (IH " "%string). repeat constructor.
Qed.

Lemma parseTags_clean (s : string) : Forall cleanTag (parseTags s).
Proof.
  unfold parseTags. apply List.Forall_forall. intros tag Hin.
  apply List.filter_In in Hin as [Hin Hne].
  apply List.in_map_iff in Hin as (piece & <- & Hpiece).
  split_and!.
  - apply isEmpty_false. destruct (isEmpty (trim piece)); [discriminate | reflexivity].
  - apply trim_idempotent.
  - intros Hcomma. apply trim_chars in Hcomma.
    pose proof (split_pieces s ","%char) as Hpieces.
    rewrite List.Forall_forall in Hpieces. exact (Hpieces _ Hpiece Hcomma).
Qed.

Lemma parseTags_join_clean (tags : list string) :
  Forall cleanTag tags -> parseTags (join tags ", ") = tags.
Proof.
  intros Hclean. rewrite <- (app_nil (join tags ", ")).
  apply parseTags_join; [exact Hclean | constructor].
Qed.

(** Every tag [parseTags] returns is clean: not empty, trimmed, without a
    comma.  And clean tags written the way the placeholder shows, joined
    by a comma and a space, are read back as they were. *)
Theorem parseTags_round_trip (s : string) (tags : list string) :
  Forall cleanTag (parseTags s)
  /\ (Forall cleanTag tags -> parseTags (join tags ", ") = tags).
Proof.
  split; [apply parseTags_clean | apply parseTags_join_clean].
Qed.

(** The draft that writes a post out again: its fields as the feed
    shows them, its tags joined by a comma and a space. *)
Definition asDraft (p : Post.t) : Draft.t := {|
  Draft.title := Post.title p;
  Draft.date := Post.date p;
  Draft.tags := join (Post.tags p) ", ";
  Draft.summary := Post.summary p;
  Draft.content := Post.content p;
|}.

(** What [handleSubmit] stores is already in the form it stores things
    in: typing a stored post into the form again gives the same post, so
    deleting and recreating a post changes nothing but its id. *)
Theorem newPost_of_stored_post (env env' : Env) (d : Draft.t) :
  let stored := newPost env d in
  let again := newPost env' (asDraft stored) in
  Post.title again = Post.title stored
  /\ Post.date again = (if isEmpty (Post.date stored) then today env' else Post.date stored)
  /\ Post.tags again = Post.tags stored
  /\ Post.summary again = Post.summary stored
  /\ Post.content again = Post.content stored
  /\ (today env <> EmptyString -> Post.date again = Post.date stored).
Proof.
  simpl. split_and!; try apply trim_idempotent; try reflexivity.
  - apply parseTags_join_clean, parseTags_clean.
  - intros Htoday. destruct (isEmpty (Draft.date d)) eqn:Hd; simpl.
    + apply isEmpty_false in Htoday. rewrite Htoday. reflexivity.
    + rewrite Hd. reflexivity.
Qed.

End TagFacts.

(** ** More on the view *)

Module ViewLaws.
Import JSString JSValue App Store Statements JSStringFacts StringLaws ViewFacts.

Lemma insert_perm {A} (cmp : A -> A -> result Z) (x : A) (l r : list A) :
  insert cmp x l = Ok r -> Permutation r (x :: l).
Proof.
  revert r. induction l as [|y l IH]; intros r; simpl.
  - intros [= <-]. reflexivity.
  - destruct (cmp x y) as [c|e]; simpl; [|discriminate].
    destruct (c <=? 0)%Z; [intros [= <-]; reflexivity|].
    destruct (insert cmp x l) as [r'|e]; simpl; [|discriminate].
    intros [= <-]. rewrite (IH r' eq_refl). apply perm_swap.
Qed.

Lemma sort_perm {A} (cmp : A -> A -> result Z) (l s : list A) :
  sort cmp l = Ok s -> Permutation s l.
Proof.
  revert s. induction l as [|x l IH]; intros s; simpl.
  - intros [= <-]. reflexivity.
  - destruct (sort cmp l) as [s'|e]; simpl; [|discriminate].
    intros Hins. rewrite (insert_perm _ _ _ _ Hins), (IH s' eq_refl). reflexivity.
Qed.

Lemma filterM_sublist {A} (f : A -> result bool) (l v : list A) :
  filterM f l = Ok v -> sublist v l.
Proof.
  revert v. induction l as [|x l IH]; intros v; simpl.
  - intros [= <-]. constructor.
  - destruct (f x) as [b|e]; simpl; [|discriminate].
    destruct (filterM f l) as [v'|e]; simpl; [|discriminate].
    intros [= <-]. destruct b; [apply sublist_skip | apply sublist_cons]; auto.
Qed.

Lemma filterM_narrows {A} (f1 f2 : A -> result bool) (l v2 : list A) :
  (forall x b2, f2 x = Ok b2 -> exists b1, f1 x = Ok b1 /\ (b2 = true -> b1 = true)) ->
  filterM f2 l = Ok v2 ->
  exists v1, filterM f1 l = Ok v1 /\ sublist v2 v1.
Proof.
  intros Hf. revert v2. induction l as [|x l IH]; intros v2; simpl.
  - intros [= <-]. exists []. split; [reflexivity | constructor].
  - destruct (f2 x) as [b2|e] eqn:H2; simpl; [|discriminate].
    destruct (Hf x b2 H2) as (b1 & -> & Hb). simpl.
    destruct (filterM f2 l) as [v2'|e]; simpl; [|discriminate].
    destruct (IH v2' eq_refl) as (v1 & -> & Hsub). simpl.
    intros [= <-]. eexists. split; [reflexivity|].
    destruct b2; [rewrite Hb by reflexivity; apply sublist_skip, Hsub|].
    destruct b1; [apply sublist_cons, Hsub | exact Hsub].
Qed.

Lemma sublist_rest {A} (v l : list A) :
  sublist v l -> exists rest, Permutation (v ++ rest) l.
Proof.
  induction 1 as [|x v l _ [rest IH]|x v l _ [rest IH]].
  - exists []. reflexivity.
  - exists rest. simpl. rewrite IH. reflexivity.
  - exists (x :: rest). rewrite <- Permutation_middle, IH. reflexivity.
Qed.

Section WithRuntime.
Context `{Runtime}.

Lemma view_rest (ps : list value) (query : string) (v : list value) :
  filteredPosts ps query = Ok v -> exists rest, Permutation (v ++ rest) ps.
Proof.
  unfold filteredPosts.
  destruct (sort byDateDesc ps) as [sorted|e] eqn:Hsort; simpl; [|discriminate].
  apply sort_perm in Hsort. intros Hv.
  assert (Hsub : sublist v sorted).
  { destruct (isEmpty _); [injection Hv as <-; reflexivity|].
    eapply filterM_sublist, Hv. }
  apply sublist_rest in Hsub as [rest Hrest]. exists rest.
  rewrite Hrest. exact Hsort.
Qed.

(** The view shows posts of the collection and nothing else, none more
    often than the collection holds it; and a query of white space only,
    the empty one included, shows them all. *)
Theorem view_within_store (ps : list value) (query : string) (v : list value) :
  filteredPosts ps query = Ok v ->
  (exists rest, Permutation (v ++ rest) ps)
  /\ (forall post, In post v -> In post ps)
  /\ length v <= length ps
  /\ (allWhite query -> Permutation v ps).
Proof.
  unfold filteredPosts.
  destruct (sort byDateDesc ps) as [sorted|e] eqn:Hsort; simpl; [|discriminate].
  apply sort_perm in Hsort. intros Hv.
  assert (Hsub : sublist v sorted).
  { destruct (isEmpty _); [injection Hv as <-; reflexivity|].
    eapply filterM_sublist, Hv. }
  assert (Hrest : exists rest, Permutation (v ++ rest) ps).
  { apply sublist_rest in Hsub as [rest Hrest]. exists rest.
    rewrite Hrest. exact Hsort. }
  split_and!.
  - exact Hrest.
  - destruct Hrest as [rest Hrest]. intros post Hin.
    eapply Permutation_in; [exact Hrest|]. apply in_or_app. auto.
  - destruct Hrest as [rest Hrest]. apply Permutation_length in Hrest.
    rewrite length_app in Hrest. lia.
  - intros Hw. apply trim_empty in Hw. rewrite Hw in Hv. simpl in Hv.
    injection Hv as <-. exact Hsort.
Qed.

(** Typing more never shows more: when the normalised first query occurs
    in the normalised second one, whatever the second query shows, the
    first shows too, in the same order. *)
Theorem view_narrows (ps : list value) (q1 q2 : string) (v2 : list value) :
  includes (toLowerCase (trim q2)) (toLowerCase (trim q1)) = true ->
  filteredPosts ps q2 = Ok v2 ->
  exists v1, filteredPosts ps q1 = Ok v1 /\ sublist v2 v1.
Proof.
  unfold filteredPosts. intros Hinc.
  destruct (sort byDateDesc ps) as [sorted|e]; simpl; [|discriminate].
  destruct (isEmpty (toLowerCase (trim q1))) eqn:H1.
  - intros Hv. exists sorted. split; [reflexivity|].
    destruct (isEmpty (toLowerCase (trim q2))); [injection Hv as <-; reflexivity|].
    eapply filterM_sublist, Hv.
  - destruct (isEmpty (toLowerCase (trim q2))) eqn:H2.
    + apply isEmpty_true in H2. rewrite H2 in Hinc.
      apply includes_substring in Hinc as (pre & suf & Hinc).
      destruct pre; [|discriminate]. rewrite app_nil in Hinc.
      destruct (toLowerCase (trim q1)); discriminate.
    + apply filterM_narrows. intros post b2.
      destruct (haystack post) as [h|e]; simpl; [|discriminate].
      intros [= <-]. eexists. split; [reflexivity|].
      intros Hh. eapply includes_trans; eassumption.
Qed.

(** The query is read without its case and without the white space
    around it. *)
Theorem view_ignores_case_and_margins (ps : list value) (q q' l r : string) :
  toLowerCase q' = toLowerCase q ->
  allWhite l -> allWhite r ->
  filteredPosts ps (l +:+ q' +:+ r) = filteredPosts ps q.
Proof.
  intros Hcase Hl Hr. unfold filteredPosts.
  rewrite (trim_white _ _ _ Hl Hr), <- !trim_toLowerCase, Hcase. reflexivity.
Qed.

End WithRuntime.
End ViewLaws.

(** ** The view after a submit and after a delete *)

Module FeedLaws.
Import JSString JSValue App Store Statements JSStringFacts StringLaws ViewFacts RemoveFacts.

(** The posts of [ps] whose id is not [id]. *)
Definition without (id : string) (ps : list Post.t) : list Post.t :=
  List.filter (fun p => negb (String.eqb (Post.id p) id)) ps.

Lemma removePost_obj (id : string) (ps : list Post.t) :
  removePost id (map obj ps) = Ok (map obj (without id ps)).
Proof.
  unfold removePost, without. induction ps as [|p ps IH]; [reflexivity|].
  cbn [map filterM List.filter].
  change (idDiffers id (obj p)) with (Ok (negb (String.eqb (Post.id p) id)) : result bool).
  simpl. rewrite IH. simpl. destruct (negb _); reflexivity.
Qed.

Section WithRuntime.
Context `{Runtime}.

Lemma insertByDate_head (x : Post.t) (l : list Post.t) :
  (forall y, In y l -> newerFirst x y) -> insertByDate x l = x :: l.
Proof.
  destruct l as [|y l]; [reflexivity|]. intros Hx. simpl.
  specialize (Hx y (or_introl eq_refl)). unfold newerFirst in Hx.
  apply Z.leb_le in Hx. rewrite Hx. reflexivity.
Qed.

Lemma filter_insertByDate (f : Post.t -> bool) (x : Post.t) (l : list Post.t) :
  consistent_comparator ->
  StronglySorted newerFirst l ->
  List.filter f (insertByDate x l)
  = if f x then insertByDate x (List.filter f l) else List.filter f l.
Proof.
  intros [_ Htrans]. induction 1 as [|y l Hs IH Hy].
  - simpl. destruct (f x); reflexivity.
  - cbn [insertByDate].
    destruct (Z.leb_spec (localeCompare (Post.date y) (Post.date x)) 0) as [Hle|Hgt].
    + cbn [List.filter]. destruct (f x); [|reflexivity].
      symmetry. apply insertByDate_head. intros z Hz.
      assert (Hin : In z (y :: l)).
      { destruct (f y); [|apply List.filter_In in Hz as [Hz _]; right; exact Hz].
        destruct Hz as [<-|Hz]; [left; reflexivity|].
        apply List.filter_In in Hz as [Hz _]. right. exact Hz. }
      destruct Hin as [<-|Hin]; [exact Hle|].
      rewrite List.Forall_forall in Hy. specialize (Hy z Hin).
      unfold newerFirst in *. eapply Htrans; eassumption.
    + cbn [List.filter]. rewrite IH.
      destruct (f y) eqn:Hfy, (f x) eqn:Hfx; try reflexivity.
      cbn [insertByDate].
      destruct (Z.leb_spec (localeCompare (Post.date y) (Post.date x)) 0); [lia|].
      reflexivity.
Qed.

Lemma sortByDate_filter (f : Post.t -> bool) (l : list Post.t) :
  consistent_comparator ->
  sortByDate (List.filter f l) = List.filter f (sortByDate l).
Proof.
  intros Hc. induction l as [|x l IH]; [reflexivity|].
  cbn [List.filter sortByDate].
  rewrite (filter_insertByDate f x _ Hc (sortByDate_sorted l Hc)).
  destruct (f x); [|exact IH]. cbn [sortByDate]. rewrite IH. reflexivity.
Qed.

(** The posts the view shows, as posts. *)
Definition shownPosts (ps : list Post.t) (query : string) : list Post.t :=
  if isEmpty (toLowerCase (trim query)) then sortByDate ps
  else List.filter (fun p => includes (text p) (toLowerCase (trim query))) (sortByDate ps).

Lemma view_obj (ps : list Post.t) (query : string) :
  filteredPosts (map obj ps) query = Ok (map obj (shownPosts ps query)).
Proof.
  unfold filteredPosts, shownPosts. rewrite sort_obj. simpl.
  destruct (isEmpty _); [reflexivity | apply filterM_obj].
Qed.

Lemma view_without (ps : list Post.t) (id query : string) :
  consistent_comparator ->
  shownPosts (without id ps) query = without id (shownPosts ps query).
Proof.
  intros Hc. unfold shownPosts, without. rewrite (sortByDate_filter _ _ Hc).
  destruct (isEmpty _); [reflexivity | apply filter_comm].
Qed.

(** Deleting takes the post's entries out of the view and leaves every
    other entry where it was: the view of the collection after
    [removePost] is the view before it, without the posts of that id. *)
Theorem delete_leaves_view_in_place (ps : list Post.t) (id query : string) :
  consistent_comparator ->
  exists shown,
    filteredPosts (map obj ps) query = Ok (map obj shown)
    /\ (kept ← removePost id (map obj ps); filteredPosts kept query)
       = Ok (map obj (without id shown)).
Proof.
  intros Hc. exists (shownPosts ps query). split; [apply view_obj|].
  rewrite removePost_obj. simpl. rewrite view_obj, (view_without _ _ _ Hc). reflexivity.
Qed.

(** A post added to the front of the collection is shown above every
    post that is not newer than it: when no post of the collection has a
    later date, the unfiltered view is the new post, then the view as it
    was. *)
Theorem new_post_on_top (p : Post.t) (ps : list Post.t) :
  consistent_comparator ->
  (forall y, In y ps -> (localeCompare (Post.date y) (Post.date p) <= 0)%Z) ->
  exists before,
    filteredPosts (map obj ps) EmptyString = Ok before
    /\ filteredPosts (add (obj p) (map obj ps)) EmptyString = Ok (obj p :: before).
Proof.
  intros _ Hnew. eexists. split; [apply view_obj|].
  change (add (obj p) (map obj ps)) with (map obj (p :: ps)).
  rewrite view_obj. unfold shownPosts.
  cbn [isEmpty trim trimStart trimEnd toLowerCase sortByDate].
  rewrite insertByDate_head; [reflexivity|].
  intros y Hy. apply Hnew. eapply Permutation_in; [apply sortByDate_perm | exact Hy].
Qed.

End WithRuntime.
End FeedLaws.

(** ** The feed

    The JSX of the feed, [<div className="feed">...</div>], as the tree
    of elements the component returns for the posts of the view.  An
    element has its type, its string attributes, its key as React keeps
    it, its click handler and its children; a child is also a text, a
    value in braces, an array of elements or [null]. *)

Module Feed.
Import JSString JSValue App.

(** [() => removePost(post.id)], with the value [post.id] has. *)
Inductive click := RemovePost (id : option value).

Inductive jsx :=
| Elem (type : string) (attrs : list (string * string)) (key : option string)
       (onClick : option click) (children : list jsx)
| Text (s : string)
| Expr (v : option value)
| Nodes (l : list jsx)
| Null.

(** [post.tags?.length] as a condition: [undefined] for [undefined] and
    [null]; the length of an array or a string; the own property of an
    object; [undefined] for a number or a boolean. *)
Definition hasLength (tags : option value) : bool :=
  match tags with
  | Some (VArr l) => negb (Nat.eqb (length l) 0)
  | Some (VStr s) => negb (isEmpty s)
  | Some (VObj props) => truthy (own props "length")
  | _ => false
  end.

Section WithRuntime.
Context `{Runtime}.

(** [key={v}]: when the element is created React keeps ['' + v], a
    string, as its key, and no key for [undefined].  The conversion is
    ToString: [null] gives the key null, the number 1 the key 1, and an
    object with an own [toString] throws. *)
Definition keyFrom (v : option value) : result (option string) :=
  match v with
  | None => Ok None
  | Some v => s ← ToString v; Ok (Some s)
  end.

(** [<span className="tag" key={tag}>{tag}</span>] *)
Definition tagSpan (tag : value) : result jsx :=
  key ← keyFrom (Some tag);
  Ok (Elem "span" [("className", "tag")]%string key None [Expr (Some tag)]).

(** [post.tags?.length ? <span>{post.tags.map(...)}</span> : null]: only
    an array has [map]. *)
Definition tagList (tags : option value) : result jsx :=
  if hasLength tags then
    match tags with
    | Some (VArr l) => spans ← mapM tagSpan l; Ok (Elem "span" [] None None [Nodes spans])
    | _ => Throw TypeError
    end
  else Ok Null.

(** [<article className="post" key={post.id}>...</article>] *)
Definition article (post : value) : result jsx :=
  id ← get post "id";
  title ← get post "title";
  date ← get post "date";
  tags ← get post "tags";
  tagsNode ← tagList tags;
  summary ← get post "summary";
  content ← get post "content";
  key ← keyFrom id;
  Ok (Elem "article" [("className", "post")] key None
        [ Elem "header" [] None None
            [ Elem "div" [] None None
                [ Elem "h3" [] None None [Expr title];
                  Elem "p" [("className", "meta")] None None
                    [ Elem "span" [] None None [Expr date]; tagsNode ] ];
              Elem "button" [("className", "ghost danger"); ("type", "button")] None
                (Some (RemovePost id)) [Text "Delete"] ];
          (if truthy summary
           then Elem "p" [("className", "summary")] None None [Expr summary]
           else Null);
          Elem "p" [("className", "body")] None None [Expr content] ])%string.

(** The feed for the posts of the view. *)
Definition feed (filteredPosts : list value) : result jsx :=
  inner ← (if Nat.eqb (length filteredPosts) 0
           then Ok (Elem "div" [("className", "empty-state")] None None
                      [Text "No matching posts yet."])
           else articles ← mapM article filteredPosts; Ok (Nodes articles));
  Ok (Elem "div" [("className", "feed")] None None [inner])%string.

(** A value no key can be made of. *)
Definition unprintable (v : value) : Prop := ToString v = Throw TypeError.

(** Tags the feed cannot draw: they have a length but are no array, or
    they are an array with an element no key can be made of. *)
Definition badTags (tags : option value) : Prop :=
  (hasLength tags = true /\ forall l, tags <> Some (VArr l))
  \/ (exists l, tags = Some (VArr l) /\ Exists unprintable l).

(** A post the feed cannot draw: [null], a post with such tags, or a
    post of whose id no key can be made. *)
Definition undrawable (post : value) : Prop :=
  post = VNull
  \/ (exists tags, get post "tags" = Ok tags /\ badTags tags)
  \/ (exists id, get post "id" = Ok (Some id) /\ unprintable id).

End WithRuntime.

(** What React takes as a child in braces: a string, a number, a
    boolean, [null] and [undefined]; an array of such; but no object,
    on which it throws. *)
Fixpoint validChild (v : value) : bool :=
  match v with
  | VObj _ => false
  | VArr l => forallb validChild l
  | _ => true
  end.

(** React can render the tree: every value in braces is a valid child. *)
Fixpoint valid (tree : jsx) : bool :=
  match tree with
  | Elem _ _ _ _ children => forallb valid children
  | Expr (Some v) => validChild v
  | Nodes l => forallb valid l
  | Text _ | Expr None | Null => true
  end.

(** What a tree shows: the articles of a feed, the key of an element and
    the click its Delete button handles. *)
Definition articles (tree : jsx) : list jsx :=
  match tree with
  | Elem _ _ _ _ [Nodes l] => l
  | _ => []
  end.

Definition keyOf (tree : jsx) : option string :=
  match tree with
  | Elem _ _ key _ _ => key
  | _ => None
  end.

Definition deleteOf (tree : jsx) : option click :=
  match tree with
  | Elem _ _ _ _ (Elem _ _ _ _ [_; Elem _ _ _ onClick _] :: _) => onClick
  | _ => None
  end.

(** The feed shows the message for an empty view. *)
Definition showsEmptyState (tree : jsx) : bool :=
  match tree with
  | Elem _ _ _ _ [Elem _ [(_, cls)] _ _ _] => String.eqb cls "empty-state"
  | _ => false
  end.

(** The event a click on Delete starts, for a post whose id is a string. *)
Definition clicked (c : click) : option event :=
  match c with
  | RemovePost (Some (VStr id)) => Some (Remove id)
  | RemovePost _ => None
  end.

(** The key of the element is the string [id]. *)
Definition keyIs (id : string) (a : jsx) : bool :=
  match keyOf a with
  | Some s => String.eqb s id
  | None => false
  end.

(** The tag and the article of a post of the shape [handleSubmit]
    builds. *)
Definition spanOf (tag : string) : jsx :=
  Elem "span" [("className", "tag")]%string (Some tag) None [Expr (Some (VStr tag))].

Definition articleOf (p : Post.t) : jsx :=
  Elem "article" [("className", "post")] (Some (Post.id p)) None
    [ Elem "header" [] None None
        [ Elem "div" [] None None
            [ Elem "h3" [] None None [Expr (Some (VStr (Post.title p)))];
              Elem "p" [("className", "meta")] None None
                [ Elem "span" [] None None [Expr (Some (VStr (Post.date p)))];
                  (if Nat.eqb (length (Post.tags p)) 0 then Null
                   else Elem "span" [] None None [Nodes (map spanOf (Post.tags p))]) ] ];
          Elem "button" [("className", "ghost danger"); ("type", "button")] None
            (Some (RemovePost (Some (VStr (Post.id p))))) [Text "Delete"] ];
      (if isEmpty (Post.summary p) then Null
       else Elem "p" [("className", "summary")] None None
              [Expr (Some (VStr (Post.summary p)))]);
      Elem "p" [("className", "body")] None None [Expr (Some (VStr (Post.content p)))] ]%string.

End Feed.

(** ** The page, rendered

    [step] and [mount] of the component say what the handlers and the
    effect do.  Between a handler and the effect React renders: it calls
    the component, which computes the view and builds the feed, and
    takes the tree.  When that throws, the render is not committed:
    React unmounts the component, which has no error boundary in it, the
    effect does not run, and no further event finds a handler.  What is
    left is localStorage. *)

Module Live.
Import JSString JSValue App Feed.

Inductive page :=
| Alive (w : World)
| Crashed (left : gmap string string).

Section Machine.
Context `{Runtime} (atLoad : Env).

(** The render of the state [w] threw nothing.  The rest of the page
    shows constants and the strings of the draft. *)
Definition renders (w : World) : bool :=
  match v ← filteredPosts (posts w) (query w); feed v with
  | Ok tree => valid tree
  | Throw _ => false
  end.

(** The state [w'] a handler set, from the page [before]: the render
    and, after it, the effect when [posts] was set. *)
Definition commit (before w' : World) (postsSet : bool) : page :=
  if renders w' then Alive (if postsSet then persist w' else w')
  else Crashed (localStorage before).

(** The first render, then the effect. *)
Definition mount (stored : gmap string string) : page :=
  let '(ps, logged) := loadPosts stored in
  let w := {| posts := ps; draft := emptyDraft atLoad; query := EmptyString;
              showForm := true; localStorage := stored; console := logged |} in
  if renders w then Alive (persist w) else Crashed stored.

(** One event on a page that is alive.  A handler that returns early
    sets no state, and nothing is rendered; the updater of [removePost]
    runs in the render, where its exception is the render's. *)
Definition step (env : Env) (ev : event) (w : World) : page :=
  match ev with
  | Change name v => commit w (handleChange name v w) false
  | Submit =>
      match handleSubmit atLoad env w with
      | Some w' => commit w w' true
      | None => Alive w
      end
  | Clear => commit w (clear atLoad w) false
  | Remove id =>
      match removePost id (posts w) with
      | Ok ps => commit w (setPosts w ps) true
      | Throw _ => Crashed (localStorage w)
      end
  | Reset =>
      match resetPosts env w with
      | Some w' => commit w w' true
      | None => Alive w
      end
  | Search q => commit w (setQuery w q) false
  | ToggleForm => commit w (setShowForm w (negb (showForm w))) false
  end.

(** A run: the events in order, as long as the page is alive. *)
Fixpoint run (trace : list (Env * event)) (p : page) : page :=
  match trace, p with
  | (env, ev) :: rest, Alive w => run rest (step env ev w)
  | _, _ => p
  end.

End Machine.
End Live.

Module FeedFacts.
Import JSString JSValue App Store Statements JSStringFacts ViewFacts RemoveFacts FeedLaws Feed.

Lemma get_nonnull (post : value) (k : string) :
  post <> VNull -> exists v, get post k = Ok v.
Proof. destruct post; try done; simpl; eauto. Qed.

Section WithRuntime.
Context `{Runtime}.

Lemma mapElems_cons (f : value -> result string) (x : value) (l : list value) :
  mapElems f (x :: l)
  = match x with
    | VNull => ys ← mapElems f l; Ok (EmptyString :: ys)
    | _ => y ← f x; ys ← mapElems f l; Ok (y :: ys)
    end.
Proof. destruct x; reflexivity. Qed.

(** ToString returns a string or throws a TypeError. *)
Lemma ToString_cases :
  forall v, (exists s, ToString v = Ok s) \/ ToString v = Throw TypeError.
Proof.
  fix IH 1. intros [| [|] | n | s | l | props]; simpl; eauto.
  - assert (Hl : (exists parts, mapElems ToString l = Ok parts)
                 \/ mapElems ToString l = Throw TypeError).
    { induction l as [|x l IHl]; [left; eexists; reflexivity|].
      rewrite mapElems_cons.
      destruct IHl as [[parts ->]| ->];
        destruct (IH x) as [[s ->]| ->]; destruct x; simpl; eauto. }
    destruct Hl as [[parts ->]| ->]; simpl; eauto.
  - destruct (own props "toString"); eauto.
Qed.

Lemma tagSpan_cases (tag : value) :
  (unprintable tag /\ tagSpan tag = Throw TypeError)
  \/ (~ unprintable tag /\ exists span, tagSpan tag = Ok span).
Proof.
  unfold tagSpan, unprintable, keyFrom.
  destruct (ToString_cases tag) as [[s ->]| ->]; simpl.
  - right. split; [discriminate | eauto].
  - left. auto.
Qed.

Lemma mapM_tagSpan (l : list value) :
  (Exists unprintable l /\ mapM tagSpan l = Throw TypeError)
  \/ (~ Exists unprintable l /\ exists spans, mapM tagSpan l = Ok spans).
Proof.
  induction l as [|tag l IH].
  - right. split; [intros Hex; inversion Hex | eexists; reflexivity].
  - simpl. destruct (tagSpan_cases tag) as [[Hu ->]|[Hp [span ->]]]; simpl.
    + left. split; [left; exact Hu | reflexivity].
    + destruct IH as [[Hex ->]|[Hnex [spans ->]]]; simpl.
      * left. split; [right; exact Hex | reflexivity].
      * right. split; [|eauto].
        intros Hex. apply Exists_cons in Hex as [|]; tauto.
Qed.

Lemma tagList_cases (tags : option value) :
  (badTags tags /\ tagList tags = Throw TypeError)
  \/ (~ badTags tags /\ exists node, tagList tags = Ok node).
Proof.
  unfold tagList, badTags. destruct (hasLength tags) eqn:Hlen.
  - destruct tags as [[| | | |l|]|];
      try (left; split; [left; split; [reflexivity | discriminate] | reflexivity]).
    destruct (mapM_tagSpan l) as [[Hex ->]|[Hnex [spans ->]]]; simpl.
    + left. split; [right; eauto | reflexivity].
    + right. split; [|eauto].
      intros [[_ Hna]|(l' & [= <-] & Hex)]; [destruct (Hna l eq_refl) | tauto].
  - right. split; [|eauto].
    intros [[? _]|(l & -> & Hex)]; [discriminate|].
    destruct l; [inversion Hex | discriminate].
Qed.

Lemma keyFrom_cases (id : option value) :
  ((exists v, id = Some v /\ unprintable v) /\ keyFrom id = Throw TypeError)
  \/ (~ (exists v, id = Some v /\ unprintable v) /\ exists key, keyFrom id = Ok key).
Proof.
  unfold keyFrom, unprintable. destruct id as [v|].
  - destruct (ToString_cases v) as [[s Hs]|Hthrow]; rewrite ?Hs, ?Hthrow; simpl.
    + right. split; [|eauto]. intros (v' & [= <-] & Hv). congruence.
    + left. eauto.
  - right. split; [|eauto]. intros (v & Hv & _). discriminate.
Qed.

(** An article is drawn unless its post is undrawable, and then a
    TypeError is thrown; a drawn article has the string of the post's id
    as its key, and its Delete button removes the id. *)
Lemma article_cases (post : value) :
  (undrawable post /\ article post = Throw TypeError)
  \/ (~ undrawable post
      /\ exists a id, article post = Ok a /\ get post "id" = Ok id
                      /\ keyFrom id = Ok (keyOf a) /\ deleteOf a = Some (RemovePost id)).
Proof.
  assert (Hcase : post = VNull \/ post <> VNull)
    by (destruct post; (left; reflexivity) || (right; discriminate)).
  destruct Hcase as [->|Hnn]; [left; split; [left|]; reflexivity|].
  unfold article, undrawable.
  destruct (get_nonnull post "id" Hnn) as [id Hid]. rewrite Hid.
  destruct (get_nonnull post "title" Hnn) as [title ->].
  destruct (get_nonnull post "date" Hnn) as [date ->].
  destruct (get_nonnull post "tags" Hnn) as [tags Htags]. rewrite Htags.
  destruct (get_nonnull post "summary" Hnn) as [summary ->].
  destruct (get_nonnull post "content" Hnn) as [content ->].
  simpl. destruct (tagList_cases tags) as [[Hbad ->]|[Hok [node ->]]]; simpl.
  - left. split; [right; left; eauto | reflexivity].
  - destruct (keyFrom_cases id) as [[(v & -> & Hv) ->]|[Hkey [key Hk]]]; simpl.
    + left. split; [right; right; eauto | reflexivity].
    + rewrite Hk. simpl. right. split.
      * intros [->|[(tags' & [= <-] & Hbad)|(v & [= ->] & Hv)]]; [done | tauto |].
        apply Hkey. eauto.
      * do 2 eexists. split_and!; [reflexivity | reflexivity | exact Hk | reflexivity].
Qed.

Lemma mapM_article (view : list value) :
  (Exists undrawable view /\ mapM article view = Throw TypeError)
  \/ (~ Exists undrawable view
      /\ exists arts, mapM article view = Ok arts
           /\ Forall2 (fun a post => exists id, get post "id" = Ok id
                          /\ keyFrom id = Ok (keyOf a)
                          /\ deleteOf a = Some (RemovePost id))
                arts view).
Proof.
  induction view as [|post view IH].
  - right. split; [intros Hex; inversion Hex|]. exists []. split; [reflexivity | constructor].
  - destruct (article_cases post) as [[Hu Hthrow]|[Hd (a & id & Ha & Hid & Hkey & Hdel)]].
    + left. split; [left; exact Hu|]. simpl. rewrite Hthrow. reflexivity.
    + destruct IH as [[Hex Hthrow]|[Hnex (arts & Harts & Hall)]].
      * left. split; [right; exact Hex|]. simpl. rewrite Ha, Hthrow. reflexivity.
      * right. split.
        -- intros Hex. apply Exists_cons in Hex as [|]; tauto.
        -- exists (a :: arts). split; [simpl; rewrite Ha, Harts; reflexivity|].
           constructor; [eauto | exact Hall].
Qed.

Lemma feed_cases (view : list value) :
  (Exists undrawable view -> feed view = Throw TypeError)
  /\ (~ Exists undrawable view ->
      exists tree, feed view = Ok tree
        /\ (showsEmptyState tree = true <-> view = [])
        /\ Forall2 (fun a post => exists id, get post "id" = Ok id
                       /\ keyFrom id = Ok (keyOf a)
                       /\ deleteOf a = Some (RemovePost id))
             (articles tree) view).
Proof.
  unfold feed. destruct view as [|post view].
  - split; [intros Hex; inversion Hex|]. intros _. eexists. split; [reflexivity|].
    split; [split; reflexivity | constructor].
  - cbn [length Nat.eqb].
    destruct (mapM_article (post :: view)) as [[Hex ->]|[Hnex (arts & -> & Hall)]].
    + split; [reflexivity | tauto].
    + split; [tauto|]. intros _. eexists. split; [reflexivity|].
      split; [split; discriminate | exact Hall].
Qed.


Lemma mapM_tagSpan_strings (tags : list string) :
  mapM tagSpan (map VStr tags) = Ok (map spanOf tags).
Proof.
  induction tags as [|tag tags IH]; [reflexivity|].
  cbn [map mapM]. rewrite IH. reflexivity.
Qed.

Lemma article_obj (p : Post.t) : article (obj p) = Ok (articleOf p).
Proof.
  unfold articleOf, article, tagList. simpl.
  rewrite mapM_tagSpan_strings, length_map.
  destruct (Nat.eqb _ 0); simpl; destruct (isEmpty _); reflexivity.
Qed.

Lemma mapM_article_obj (l : list Post.t) :
  mapM article (map obj l) = Ok (map articleOf l).
Proof.
  induction l as [|x l IH]; [reflexivity|].
  cbn [map mapM]. rewrite article_obj, IH. reflexivity.
Qed.

Lemma valid_articleOf (p : Post.t) : valid (articleOf p) = true.
Proof.
  assert (Hspans : forall tags, forallb valid (map spanOf tags) = true)
    by (induction tags as [|tag tags IH]; [reflexivity | exact IH]).
  unfold articleOf. simpl.
  destruct (Nat.eqb _ 0); simpl; rewrite ?Hspans; destruct (isEmpty _); reflexivity.
Qed.

(** The feed of posts is drawn, one article per post, and React can
    render it. *)
Lemma feed_obj (ps : list Post.t) :
  exists tree, feed (map obj ps) = Ok tree /\ articles tree = map articleOf ps
               /\ valid tree = true.
Proof.
  unfold feed. destruct ps as [|p ps]; [eexists; split_and!; reflexivity|].
  pose proof (mapM_article_obj (p :: ps)) as Hp. cbn [map] in Hp.
  cbn [map length Nat.eqb]. rewrite Hp.
  eexists. split_and!; [reflexivity | reflexivity |].
  cbn [valid forallb]. rewrite valid_articleOf, andb_true_r. simpl. clear Hp.
  induction ps as [|x ps IH]; [reflexivity|].
  cbn [map forallb]. rewrite valid_articleOf. exact IH.
Qed.

Lemma keyIs_articleOf (id : string) (p : Post.t) :
  keyIs id (articleOf p) = String.eqb (Post.id p) id.
Proof. reflexivity. Qed.

Lemma filter_articles (id : string) (ps : list Post.t) :
  map articleOf (without id ps)
  = List.filter (fun a => negb (keyIs id a)) (map articleOf ps).
Proof.
  unfold without. induction ps as [|p ps IH]; [reflexivity|].
  cbn [map List.filter]. rewrite keyIs_articleOf.
  destruct (negb _); simpl; rewrite IH; reflexivity.
Qed.

(** React asks the elements of an array for distinct keys, and a key is
    a string.  When every post of the collection has a string as id and
    no two have the same, the articles the feed draws for a view of that
    collection have pairwise distinct keys. *)
Theorem feed_keys_distinct (ps : list value) (query : string) (v : list value)
    (tree : jsx) :
  Forall identified ps ->
  NoDup (ids ps) ->
  filteredPosts ps query = Ok v ->
  feed v = Ok tree ->
  NoDup (map keyOf (articles tree))
  /\ Forall (fun a => keyOf a <> None) (articles tree).
Proof.
  intros Hid Hnd Hview Htree.
  apply ViewLaws.view_rest in Hview as [rest Hrest].
  assert (Hv : NoDup (ids v)).
  { unfold ids in *. rewrite <- Hrest, map_app in Hnd.
    apply NoDup_app in Hnd as [Hv _]. exact Hv. }
  assert (Hidv : Forall identified v).
  { rewrite List.Forall_forall in *. intros post Hin. apply Hid.
    eapply Permutation_in; [exact Hrest|]. apply in_or_app. left. exact Hin. }
  clear Hrest Hnd Hid.
  destruct (feed_cases v) as [Hthrow Hok].
  assert (Hdraw : ~ Exists undrawable v).
  { intros Hex. rewrite (Hthrow Hex) in Htree. discriminate. }
  destruct (Hok Hdraw) as (tree' & Htree' & _ & Hall).
  rewrite Htree in Htree'. injection Htree' as <-.
  assert (Hkeys : map (fun a => Ok (VStr <$> keyOf a)) (articles tree) = ids v
                  /\ Forall (fun a => keyOf a <> None) (articles tree)).
  { clear Hv Hdraw Htree Hthrow Hok. unfold ids.
    induction Hall as [|a post arts view (id & Hget & Hkey & _) _ IH];
      [split; [reflexivity | constructor]|].
    apply Forall_cons in Hidv as [[s Hs] Hidv]. destruct (IH Hidv) as [IHk IHn].
    rewrite Hs in Hget. injection Hget as <-. simpl in Hkey. injection Hkey as Hkey.
    split; [|constructor; [congruence | exact IHn]].
    simpl. rewrite <- Hkey, Hs, IHk. reflexivity. }
  destruct Hkeys as [Hkeys Hsome]. split; [|exact Hsome].
  rewrite <- Hkeys in Hv. clear -Hv.
  induction (articles tree) as [|a arts IH]; [constructor|].
  simpl in Hv. apply NoDup_cons in Hv as [Hnin Hv]. simpl. apply NoDup_cons.
  split; [|apply IH, Hv].
  intros Hin. apply Hnin. apply list_elem_of_fmap in Hin as (b & Hb & Hin).
  apply list_elem_of_fmap. exists b. split; [rewrite Hb; reflexivity | exact Hin].
Qed.

(** From the feed to the feed: on a collection of posts every article of
    the feed carries its post's id as key and a Delete button whose click
    starts the removal of that id; and after the removal of an id the
    feed is the feed as it was without the articles of that key, the
    others in place. *)
Theorem delete_click_redraws (ps : list Post.t) (query : string) :
  consistent_comparator ->
  exists shown tree,
    filteredPosts (map obj ps) query = Ok (map obj shown)
    /\ feed (map obj shown) = Ok tree
    /\ Forall2 (fun a p => keyIs (Post.id p) a = true
                           /\ (deleteOf a ≫= clicked) = Some (Remove (Post.id p)))
         (articles tree) shown
    /\ forall id, exists tree',
         (kept ← removePost id (map obj ps); v ← filteredPosts kept query; feed v)
         = Ok tree'
         /\ articles tree' = List.filter (fun a => negb (keyIs id a)) (articles tree).
Proof.
  intros Hc.
  destruct (feed_obj (shownPosts ps query)) as (tree & Htree & Harts & _).
  exists (shownPosts ps query), tree.
  split_and!; [apply view_obj | exact Htree | |].
  - rewrite Harts. clear Htree Harts.
    induction (shownPosts ps query) as [|p l IH]; [constructor|].
    constructor; [|exact IH]. split.
    + rewrite keyIs_articleOf. apply String.eqb_refl.
    + reflexivity.
  - intros id. rewrite removePost_obj. simpl.
    rewrite view_obj, (view_without _ _ _ Hc). simpl.
    destruct (feed_obj (without id (shownPosts ps query))) as (tree' & Htree' & Harts' & _).
    exists tree'. split; [exact Htree'|].
    rewrite Harts', Harts. apply filter_articles.
Qed.

End WithRuntime.
End FeedFacts.

(** ** The page along a run *)

Module LiveFacts.
Import JSString JSValue App Store Statements JSStringFacts LoadFacts RunFacts.
Import ViewLaws FeedLaws Feed FeedFacts Live.

Section WithRuntime.
Context `{Runtime} (atLoad : Env).


Lemma filterM_throws {A} (f : A -> result bool) (l : list A) (x : A) (e : exn) :
  In x l -> f x = Throw e -> exists e', filterM f l = Throw e'.
Proof.
  intros Hin Hx. induction l as [|y l IH]; [destruct Hin|].
  simpl. destruct Hin as [->|Hin].
  - rewrite Hx. simpl. eauto.
  - destruct (f y); simpl; [|eauto].
    destruct (IH Hin) as [e' ->]. simpl. eauto.
Qed.

(** A collection that holds [null] does not render, whatever the
    query: the comparator of the sort, the filter of the view or the
    feed reads a property of it. *)
Lemma renders_null (w : World) : In VNull (posts w) -> renders w = false.
Proof.
  intros Hin. unfold renders, filteredPosts.
  destruct (sort byDateDesc (posts w)) as [sorted|e] eqn:Hsort; simpl; [|reflexivity].
  apply sort_perm in Hsort.
  assert (Hs : In VNull sorted)
    by (eapply Permutation_in; [symmetry; exact Hsort | exact Hin]).
  destruct (isEmpty _); simpl.
  - destruct (feed_cases sorted) as [Hthrow _]. rewrite Hthrow; [reflexivity|].
    apply List.Exists_exists. exists VNull. split; [exact Hs | left; reflexivity].
  - match goal with
    | |- context [filterM ?f sorted] =>
        destruct (filterM_throws f sorted VNull TypeError Hs eq_refl) as [e' ->]
    end.
    reflexivity.
Qed.







(** A stored array that holds [null] is loaded as it is, and the first
    render throws on it: the page never appears, the effect does not
    run, localStorage keeps the stored text as it was, and no event of
    any run changes that. *)
Theorem null_crashes_mount (stored : gmap string string)
    (trace : list (Env * event)) :
  In VNull (fst (loadPosts stored)) ->
  Live.mount atLoad stored = Crashed stored
  /\ Live.run atLoad trace (Live.mount atLoad stored) = Crashed stored.
Proof.
  intros Hin.
  assert (Hmount : Live.mount atLoad stored = Crashed stored).
  { unfold Live.mount. destruct (loadPosts stored) as [ps logged].
    rewrite renders_null by exact Hin. reflexivity. }
  split; [exact Hmount|]. rewrite Hmount. destruct trace as [|[env ev] trace]; reflexivity.
Qed.

End WithRuntime.
End LiveFacts.

(** ** More runs *)

Module MoreRuns.
Import JSString JSValue App Store Statements JSStringFacts StringLaws.
Import ViewFacts Runs IdFacts FormLaws ViewLaws FeedLaws Feed FeedFacts LiveFacts.

(** The runtime with a parser that reads two more texts: the text
    [JSON.stringify] writes for the seed posts, and an array of [null]
    written with a space before it. *)
Definition reader : Runtime := {|
  JSON_parse := fun s =>
    if String.eqb s (Demo.stringify (VArr seedPosts)) then Ok (VArr seedPosts)
    else if String.eqb s " [null]" then Ok (VArr [VNull])
    else Demo.parse s;
  JSON_stringify := fun posts => Demo.stringify (VArr posts);
  localeCompare := Demo.codeUnitCompare;
  Number_toString := fun _ => "0"%string;
|}.

(** The same runtime a second later. *)
Definition aSecondLater : Env := {|
  today := "2026-01-29";
  now := 1769677201000;
  randomUUID := None;
  confirmed := false;
|}.

Lemma makeId_fallback_by_millisecond_run :
  (makeId Demo.nextDay = makeId aSecondLater <-> now Demo.nextDay = now aSecondLater)
  /\ String.prefix "post-" (makeId Demo.nextDay) = true
  /\ makeId Demo.nextDay <> Post.id seed1 /\ makeId Demo.nextDay <> Post.id seed2.
Proof.
  exact (makeId_fallback_by_millisecond Demo.nextDay aSecondLater eq_refl eq_refl).
Defined.

(** The draft " Test " / "Body" is submitted over the seed posts and the
    new post deleted. *)
Lemma submit_then_delete_run :
  exists w2,
    run (H := Demo.runtime) Demo.atLoad
      [(Demo.nextDay, Submit); (aSecondLater, Remove (makeId Demo.nextDay))]
      (Demo.editing Demo.someDraft) = Ok w2
    /\ posts w2 = seedPosts
    /\ getItem (localStorage w2) STORAGE_KEY
       = Some (JSON_stringify (Runtime := Demo.runtime) seedPosts).
Proof.
  apply (submit_then_delete (H := Demo.runtime) Demo.atLoad Demo.nextDay aSecondLater
           (Demo.editing Demo.someDraft)).
  - discriminate.
  - discriminate.
  - repeat constructor; discriminate.
  - reflexivity.
Defined.

(** The seed posts and the query notes, which only the second has. *)
Lemma view_within_store_run :
  (exists rest, Permutation ([obj seed2] ++ rest) seedPosts)
  /\ (forall post, In post [obj seed2] -> In post seedPosts)
  /\ length [obj seed2] <= length seedPosts
  /\ (allWhite "notes" -> Permutation [obj seed2] seedPosts).
Proof.
  exact (view_within_store (H := Demo.runtime) seedPosts "notes" [obj seed2] eq_refl).
Defined.

(** The query PRACTICE SES has the query practice in it. *)
Lemma view_narrows_run :
  exists v1, filteredPosts (H := Demo.runtime) seedPosts "practice" = Ok v1
             /\ sublist [obj seed2] v1.
Proof.
  exact (view_narrows (H := Demo.runtime) seedPosts "practice" " PRACTICE SES"
           [obj seed2] eq_refl eq_refl).
Defined.

(** GOALS between a tab and a line feed is the query goals. *)
Lemma view_ignores_case_and_margins_run :
  filteredPosts (H := Demo.runtime) seedPosts
    (String "009"%char EmptyString +:+ "GOALS" +:+ String "010"%char EmptyString)
  = filteredPosts (H := Demo.runtime) seedPosts "goals".
Proof.
  apply (view_ignores_case_and_margins (H := Demo.runtime) seedPosts "goals" "GOALS").
  - reflexivity.
  - repeat constructor.
  - repeat constructor.
Defined.

(** The first seed post is deleted while the view shows everything. *)
Lemma delete_leaves_view_in_place_run :
  exists shown,
    filteredPosts (H := Demo.runtime) (map obj [seed2; seed1]) EmptyString
    = Ok (map obj shown)
    /\ (kept ← removePost "seed-1" (map obj [seed2; seed1]);
        filteredPosts (H := Demo.runtime) kept EmptyString)
       = Ok (map obj (without "seed-1" shown)).
Proof.
  exact (delete_leaves_view_in_place (H := Demo.runtime) [seed2; seed1] "seed-1"
           EmptyString demo_consistent).
Defined.

(** A post of 29 January is added to the seed posts of 27 and 28 January. *)
Lemma new_post_on_top_run :
  exists before,
    filteredPosts (H := Demo.runtime) (map obj [seed2; seed1]) EmptyString = Ok before
    /\ filteredPosts (H := Demo.runtime)
         (add (obj first) (map obj [seed2; seed1])) EmptyString
       = Ok (obj first :: before).
Proof.
  apply (new_post_on_top (H := Demo.runtime) first [seed2; seed1] demo_consistent).
  intros y [<-|[<-|[]]]; vm_compute; discriminate.
Defined.

(** The feed of the seed posts, and the click on Delete of each. *)
Lemma delete_click_redraws_run :
  exists shown tree,
    filteredPosts (H := Demo.runtime) (map obj [seed2; seed1]) EmptyString
    = Ok (map obj shown)
    /\ feed (map obj shown) = Ok tree
    /\ Forall2 (fun a p => keyIs (Post.id p) a = true
                           /\ (deleteOf a ≫= clicked) = Some (Remove (Post.id p)))
         (articles tree) shown
    /\ forall id, exists tree',
         (kept ← removePost id (map obj [seed2; seed1]);
          v ← filteredPosts (H := Demo.runtime) kept EmptyString; feed v) = Ok tree'
         /\ articles tree' = List.filter (fun a => negb (keyIs id a)) (articles tree).
Proof.
  exact (delete_click_redraws (H := Demo.runtime) [seed2; seed1] EmptyString
           demo_consistent).
Defined.

(** The feed of the seed posts. *)
Lemma feed_keys_distinct_run :
  forall_ok (fun tree => NoDup (map keyOf (articles tree))
                         /\ Forall (fun a => keyOf a <> None) (articles tree))
    (v ← filteredPosts (H := Demo.runtime) seedPosts EmptyString; feed v).
Proof.
  destruct (filteredPosts seedPosts EmptyString) as [v|e] eqn:Hview; simpl;
    [|vm_compute in Hview; discriminate].
  destruct (feed v) as [tree|e] eqn:Htree; simpl.
  - apply (feed_keys_distinct (H := Demo.runtime) seedPosts EmptyString v tree);
      [|exact (proj2 RunFacts.invariant_seedPosts) | exact Hview | exact Htree].
    repeat constructor; eexists; reflexivity.
  - vm_compute in Hview. injection Hview as <-. vm_compute in Htree. discriminate.
Defined.



(** The browser holds an array of [null], written with a space before
    it; the page is loaded and Reset is asked for. *)
Lemma null_crashes_mount_run :
  Live.mount (H := reader) Demo.atLoad (Demo.holding " [null]")
  = Live.Crashed (Demo.holding " [null]")
  /\ Live.run (H := reader) Demo.atLoad [(Demo.atLoad, Reset)]
       (Live.mount (H := reader) Demo.atLoad (Demo.holding " [null]"))
     = Live.Crashed (Demo.holding " [null]").
Proof.
  apply (null_crashes_mount (H := reader) Demo.atLoad (Demo.holding " [null]")).
  left. reflexivity.
Defined.

End MoreRuns.
